(** * Sparse image fitting: a model of [ImageSparseFit] and of
      [MultiGaussianEllipseKappa.hessian]

    The development follows
    [lenstronomy/ImSim/image_sparse_solve.py] and
    [lenstronomy/LensModel/Profiles/multi_gaussian_ellipse_kappa.py].
    Python objects that are mutated in place (the per-profile keyword
    dictionaries) live in a heap and are passed around by reference;
    methods are computations in a state-and-exception monad over that
    heap and the standard output.  Collaborators whose code is outside
    these two files (the super class [ImageFit], SLITronomy's solvers,
    [de_lens], [util], the data and PSF classes, the single-Gaussian
    profile) are [Variable]s of the sections that use them. *)

From Stdlib Require Import ZArith.
From Stdlib Require Import Floats.PrimFloat.
From Stdlib Require Import Uint63.
From Stdlib Require Floats.SpecFloat Floats.FloatOps Floats.FloatAxioms.
From stdpp Require Import gmap strings list.
From stdpp Require Import pretty.

(** ** Python values, exceptions, the heap *)

Module Py.

(** The exceptions the modelled code can raise. *)
Inductive exn :=
| ValueError (msg : string)
| AttributeError (msg : string)
| IndexError
| TypeError.

Inductive result (A : Type) :=
| Ok (a : A)
| Raise (e : exn).
Arguments Ok {A} a.
Arguments Raise {A} e.

(** Values stored in a keyword dictionary. *)
Inductive pyval :=
| VInt (n : Z)
| VFloat (x : float)
| VArray (xs : list float).

(** A dictionary is a finite map from keys to values; dictionaries are
    heap objects, named by their location. *)
Definition loc := positive.
Abbreviation pydict := (gmap string pyval).

Record world := World {
  heap : gmap loc pydict;
  stdout : list string
}.

(** Computations that read and write the world and may raise. *)
Definition M (A : Type) : Type := world -> world * result A.

Definition ret {A} (a : A) : M A := fun w => (w, Ok a).

Definition raise {A} (e : exn) : M A := fun w => (w, Raise e).

Definition bind {A B} (m : M A) (k : A -> M B) : M B :=
  fun w =>
    match m w with
    | (w', Ok a) => k a w'
    | (w', Raise e) => (w', Raise e)
    end.

(** [print(s)] *)
Definition print (s : string) : M unit :=
  fun w => (World (heap w) (stdout w ++ [s]), Ok tt).

(** Lifting of a pure computation that may raise, and of one that only
    reads the heap. *)
Definition lift {A} (r : result A) : M A := fun w => (w, r).

Definition read {A} (f : gmap loc pydict -> result A) : M A :=
  fun w => (w, f (heap w)).

Definition rbind {A B} (r : result A) (k : A -> result B) : result B :=
  match r with
  | Ok a => k a
  | Raise e => Raise e
  end.

(** [o.attr] for an attribute that may never have been assigned, or that
    holds [None]. *)
Definition attr {A} (o : option A) (msg : string) : result A :=
  match o with
  | Some a => Ok a
  | None => Raise (AttributeError msg)
  end.

(** A list of keyword dictionaries as a caller passes it: [None], or a
    Python list of references to dictionaries. *)
Definition kwargs := option (list loc).

(** [kw[0][key] = v] *)
Definition setitem0 (kw : kwargs) (key : string) (v : pyval) : M unit :=
  match kw with
  | None => raise TypeError
  | Some [] => raise IndexError
  | Some (l :: _) =>
      fun w => (World (alter (insert key v) l (heap w)) (stdout w), Ok tt)
  end.

(** [kw is not None and len(kw) > 0] *)
Definition nonempty (kw : kwargs) : bool :=
  match kw with
  | Some (_ :: _) => true
  | _ => false
  end.

(** [xs[i]] on a Python list. *)
Definition getitem {A} (xs : list A) (i : nat) : result A :=
  match xs !! i with
  | Some x => Ok x
  | None => Raise IndexError
  end.

End Py.
Import Py.

(** The monad is used through stdpp's [x ← m; k] and [m ;; k]. *)
#[global] Instance M_ret : MRet M := @ret.
#[global] Instance M_bind : MBind M := fun A B k m => bind m k.
#[global] Instance result_ret : MRet result := @Ok.
#[global] Instance result_bind : MBind result := fun A B k r => rbind r k.

(** ** Arrays of double-precision numbers *)

Module Np.

Abbreviation array := (list float).
Abbreviation matrix := (list (list float)).

(** Largest finite double. *)
Definition DBL_MAX : float := 0x1.fffffffffffffp+1023%float.

(** [np.nan_to_num] on one number: NaN becomes zero, the infinities
    become the largest finite numbers of their sign. *)
Definition nan_to_num1 (x : float) : float :=
  if is_nan x then 0%float
  else if (x =? infinity)%float then DBL_MAX
  else if (x =? neg_infinity)%float then (- DBL_MAX)%float
  else x.

Definition nan_to_num (A : matrix) : matrix := map (map nan_to_num1) A.

(** [np.zeros((n, m))] *)
Definition zeros2 (n m : nat) : matrix := replicate n (replicate m 0%float).

(** [np.zeros_like(x, dtype=float)] *)
Definition zeros_like (x : array) : array := map (fun _ => 0%float) x.

(** Broadcasting of a one-dimensional [v] to length [n]: [v] has that
    length already, or it has length one and is repeated. *)
Definition broadcast_to (n : nat) (v : array) : result array :=
  if bool_decide (length v = n) then Ok v
  else match v with
       | [x] => Ok (replicate n x)
       | _ => Raise (ValueError "operands could not be broadcast together")
       end.

(** [A[i, :] = v] for [i] inside the matrix. *)
Definition set_row (A : matrix) (i : nat) (v : array) : result matrix :=
  match A !! i with
  | None => Raise IndexError
  | Some row =>
      match broadcast_to (length row) v with
      | Ok v' => Ok (<[i := v']> A)
      | Raise e => Raise e
      end
  end.

(** [a += b]: in place, so [b] is broadcast to the shape of [a]. *)
Definition iadd (a b : array) : result array :=
  match broadcast_to (length a) b with
  | Ok b' => Ok (zip_with PrimFloat.add a b')
  | Raise e => Raise e
  end.

(** [a - b]: the two shapes are equal, or one of them has length one. *)
Definition sub (a b : array) : result array :=
  if bool_decide (length a = length b) then Ok (zip_with PrimFloat.sub a b)
  else match a, b with
       | [x], _ => Ok (map (fun y => (x - y)%float) b)
       | _, [y] => Ok (map (fun x => (x - y)%float) a)
       | _, _ => Raise (ValueError "operands could not be broadcast together")
       end.

(** [1 / a] *)
Definition reciprocal (a : array) : array := map (fun x => (1 / x)%float) a.

(** [np.all(A == 0)] *)
Definition all_zero (A : matrix) : bool :=
  forallb (forallb (fun x => (x =? 0)%float)) A.

(** [A.T] for a matrix with [m] columns. *)
Definition transpose (m : nat) (A : matrix) : matrix :=
  map (fun j => omap (fun row => row !! j) A) (seq 0 m).

End Np.

(** ** The sparse-fit class *)

Module ImageSparseFit.

(** The parts of the collaborating objects that this class looks at. *)
Record image_data := {
  num_pixel : Z;
  pixel_width : float
}.

Record psf := { psf_error_map : Np.matrix }.

Record light_model := { profile_type_list : list string }.

Record point_source_model := { point_source_type_list : list string }.

(** The attributes set by the super class [ImageFit]. *)
Record ImageFit := {
  Data : image_data;
  PSF : psf;
  SourceModel : option light_model;
  LensLightModel : option light_model;
  PointSource : option point_source_model;
  likelihood_mask : list (list bool);
  data_response : Np.array;
  num_data_evaluate : nat
}.

(** The three SLITronomy solvers. *)
Inductive sparse_solver :=
| SparseSolverSource
| SparseSolverSourceLens
| SparseSolverSourcePS.

(** An instance of the class.  [_subgrid_res_source] is the integer
    supersampling factor that is also handed to [NumericsSubFrame];
    [sparseSolver] is [None] when the attribute was never assigned. *)
Record instance := {
  super : ImageFit;
  _subgrid_res_source : Z;
  sparseSolver : option sparse_solver
}.

(** A single dictionary ([kwargs_special]) or [None]. *)
Definition kwargs1 := option loc.

(** Methods of other classes and modules that the class calls.  Those
    that receive keyword dictionaries run in the monad; the
    collaborators' own mutable attributes are heap objects too. *)
Class Collaborators := {
  (* ImageFit *)
  _error_response :
    instance -> kwargs -> kwargs -> kwargs1 -> M (Np.array * Np.matrix);
  point_source : instance -> kwargs -> kwargs -> kwargs1 -> M Np.matrix;
  update_linear_kwargs :
    instance -> Np.array -> kwargs -> kwargs -> kwargs -> kwargs ->
    M (kwargs * kwargs * kwargs * kwargs);
  point_source_linear_response_set :
    instance -> kwargs -> kwargs -> kwargs1 ->
    M (list Np.array * list Np.array * list Np.array * nat);
  image2array_masked : instance -> Np.matrix -> Np.array;
  array_masked2image : instance -> Np.array -> Np.matrix;
  (* ImageNumerics *)
  coordinates_evaluate : instance -> Np.array * Np.array;
  point_source_rendering :
    instance -> Np.array -> Np.array -> Np.array -> Np.matrix;
  (* LightModel *)
  surface_brightness :
    light_model -> Np.array -> Np.array -> kwargs -> option nat ->
    gmap loc pydict -> result Np.array;
  (* PointSource *)
  update_linear :
    point_source_model -> Np.array -> nat -> kwargs -> kwargs ->
    M (kwargs * nat);
  (* ImageData *)
  log_likelihood :
    image_data -> Np.matrix -> list (list bool) -> Np.matrix -> float;
  (* the SLITronomy solver held in [sparseSolver] *)
  solve :
    sparse_solver -> kwargs -> kwargs -> kwargs -> kwargs -> kwargs1 ->
    Np.matrix -> M (Np.matrix * Np.array);
  (* de_lens *)
  get_param_WLS :
    Np.matrix -> Np.array -> Np.array -> bool ->
    result (Np.array * Np.matrix * Np.array);
  (* util *)
  array2image : Np.array -> result Np.matrix;
  (* division of a double by a Python integer *)
  true_divide : float -> Z -> float
}.

Definition STARLET_PROFILES : list string := ["STARLETS"; "STARLETS_GEN2"].

Definition MSG_SOURCE : string :=
  "'STARLETS' or 'STARLETS_GEN2' must be the only source model list for sparse fit".

Definition MSG_LENS_LIGHT : string :=
  "'STARLETS' or 'STARLETS_GEN2' must be the only lens light model list for sparse fit".

Definition WARNING_PSF_ERROR_MAP : string :=
  "WARNING : SparseSolver with point sources does not support PSF error map for now !".

Definition WARNING_UNCONVOLVED : string :=
  "WARNING : sparse solver for lens light does not perform deconvolution of lens light, returning convolved estimate instead".

Definition MSG_NONE_ATTR : string :=
  "'NoneType' object has no attribute 'profile_type_list'".

Definition MSG_NO_SOLVER : string :=
  "'ImageSparseFit' object has no attribute 'sparseSolver'".

Definition MSG_NONE_PS : string :=
  "'NoneType' object has no attribute 'update_linear'".

Definition MSG_NONE_SB : string :=
  "'NoneType' object has no attribute 'surface_brightness'".

(** [penalty] of [_likelihood_data_given_model] *)
Definition penalty : float := (-1e20)%float.

(** [self.LensLightModel is None or
     len(self.LensLightModel.profile_type_list) == 0] *)
Definition no_lens_light (s : ImageFit) : bool :=
  match LensLightModel s with
  | None => true
  | Some m => bool_decide (length (profile_type_list m) = 0%nat)
  end.

(** [self.PointSource is None or
     len(self.PointSource.point_source_type_list) == 0] *)
Definition no_point_sources (s : ImageFit) : bool :=
  match PointSource s with
  | None => true
  | Some m => bool_decide (length (point_source_type_list m) = 0%nat)
  end.

(** [len(model_list) != 1 or
     model_list[0] not in ['STARLETS', 'STARLETS_GEN2']]; [or] evaluates
    its right operand only when the length is one. *)
Definition not_single_starlet (model_list : list string) : bool :=
  if negb (bool_decide (length model_list = 1%nat)) then true
  else match model_list !! 0%nat with
       | Some p => negb (bool_decide (p ∈ STARLET_PROFILES))
       | None => true
       end.

(** [__init__], after the call of the super class's [__init__] has set
    the attributes [s] and [subgrid_res_source] has been read from
    [kwargs_sparse_solver] (with default 1).  The constructors of
    [NumericsSubFrame], of the three solvers and of
    [LensingOperatorInterpol] belong to other packages and are taken to
    return; the solver that is built is recorded by its name, and
    [sparseSolver] stays [None] when no branch assigns it. *)
Definition __init__ (s : ImageFit) (subgrid_res_source : option Z)
  : M instance :=
  let res := default 1%Z subgrid_res_source in
  solver ←
    (if no_lens_light s && no_point_sources s then
       sm ← lift (attr (SourceModel s) MSG_NONE_ATTR);
       let model_list := profile_type_list sm in
       if not_single_starlet model_list
       then raise (ValueError MSG_SOURCE)
       else mret (Some SparseSolverSource)
     else if no_point_sources s then
       lm ← lift (attr (LensLightModel s) MSG_NONE_ATTR);
       let model_list := profile_type_list lm in
       if not_single_starlet model_list
       then raise (ValueError MSG_LENS_LIGHT)
       else mret (Some SparseSolverSourceLens)
     else if no_lens_light s then
       (if negb (Np.all_zero (psf_error_map (PSF s)))
        then print WARNING_PSF_ERROR_MAP
        else mret tt);;
       mret (Some SparseSolverSourcePS)
     else mret None);
  mret {| super := s; _subgrid_res_source := res; sparseSolver := solver |}.

Section Methods.
Context `{Collaborators}.

Definition lens_surface_brightness (self : instance)
    (kwargs_lens_light : kwargs) (unconvolved : bool) (k : option nat)
  : M Np.matrix :=
  (if unconvolved then print WARNING_UNCONVOLVED else mret tt);;
  let '(ra_grid, dec_grid) := coordinates_evaluate self in
  llm ← lift (attr (LensLightModel (super self)) MSG_NONE_SB);
  lens_light ← read (surface_brightness llm ra_grid dec_grid kwargs_lens_light k);
  lens_light_final ← lift (array2image lens_light);
  mret lens_light_final.

Definition update_fixed_param (self : instance)
    (kwargs_source kwargs_lens_light : kwargs) : M (kwargs * kwargs) :=
  let D := Data (super self) in
  setitem0 kwargs_source "n_pixels"
    (VInt (num_pixel D * _subgrid_res_source self ^ 2));;
  setitem0 kwargs_source "scale"
    (VFloat (true_divide (pixel_width D) (_subgrid_res_source self)));;
  setitem0 kwargs_source "center_x" (VInt 0);;
  setitem0 kwargs_source "center_y" (VInt 0);;
  (if nonempty kwargs_lens_light then
     setitem0 kwargs_lens_light "n_pixels" (VInt (num_pixel D));;
     setitem0 kwargs_lens_light "scale" (VFloat (pixel_width D));;
     setitem0 kwargs_lens_light "center_x" (VInt 0);;
     setitem0 kwargs_lens_light "center_y" (VInt 0)
   else mret tt);;
  mret (kwargs_source, kwargs_lens_light).

Definition update_sparse_kwargs (self : instance) (param : Np.array)
    (kwargs_lens kwargs_source kwargs_lens_light kwargs_ps : kwargs)
  : M (kwargs * kwargs * kwargs * kwargs) :=
  '(kwargs_source, kwargs_lens_light) ←
    update_fixed_param self kwargs_source kwargs_lens_light;
  update_linear_kwargs self param kwargs_lens kwargs_source
    kwargs_lens_light kwargs_ps.

Definition _image_sparse_solve (self : instance)
    (kwargs_lens kwargs_source kwargs_lens_light kwargs_ps
       kwargs_extinction : kwargs) (kwargs_special : kwargs1)
  : M (Np.matrix * Np.matrix * Np.array) :=
  '(C_D_response, model_error) ←
    _error_response self kwargs_lens kwargs_ps kwargs_special;
  init_ps_model ← point_source self kwargs_ps kwargs_lens kwargs_special;
  solver ← lift (attr (sparseSolver self) MSG_NO_SOLVER);
  '(model, param) ←
    solve solver kwargs_lens kwargs_source kwargs_lens_light kwargs_ps
      kwargs_special init_ps_model;
  update_sparse_kwargs self param kwargs_lens kwargs_source
    kwargs_lens_light kwargs_ps;;
  mret (model, model_error, param).

Definition image_sparse_solve (self : instance)
    (kwargs_lens kwargs_source kwargs_lens_light kwargs_ps
       kwargs_extinction : kwargs) (kwargs_special : kwargs1)
  : M (Np.matrix * Np.matrix * Np.array) :=
  _image_sparse_solve self kwargs_lens kwargs_source kwargs_lens_light
    kwargs_ps kwargs_extinction kwargs_special.

(** The call of [_image_sparse_solve] names [kwargs_lens],
    [kwargs_source], [kwargs_lens_light] and [kwargs_special] only:
    [kwargs_ps] and [kwargs_extinction] take their default [None]. *)
Definition _likelihood_data_given_model (self : instance)
    (kwargs_lens kwargs_source kwargs_lens_light kwargs_ps : kwargs)
    (kwargs_special : kwargs1) : M float :=
  '(im_sim, model_error, param) ←
    _image_sparse_solve self kwargs_lens kwargs_source kwargs_lens_light
      None None kwargs_special;
  let logL :=
    log_likelihood (Data (super self)) im_sim
      (likelihood_mask (super self)) model_error in
  if negb (is_finite logL) then mret penalty else mret logL.

Definition likelihood_data_given_model (self : instance)
    (kwargs_lens kwargs_source kwargs_lens_light kwargs_ps : kwargs)
    (kwargs_special : kwargs1) : M float :=
  _likelihood_data_given_model self kwargs_lens kwargs_source
    kwargs_lens_light kwargs_ps kwargs_special.

(** The loop of [point_source_linear_response_matrix] over the indices
    [idx] that are still to be done. *)
Fixpoint response_rows (self : instance)
    (ra_pos dec_pos amp : list Np.array) (idx : list nat) (A : Np.matrix)
  : result Np.matrix :=
  match idx with
  | [] => Ok A
  | i :: idx' =>
      ra ← getitem ra_pos i;
      dec ← getitem dec_pos i;
      a ← getitem amp i;
      let image := point_source_rendering self ra dec a in
      A' ← Np.set_row A i (image2array_masked self image);
      response_rows self ra_pos dec_pos amp idx' A'
  end.

Definition point_source_linear_response_matrix (self : instance)
    (kwargs_lens kwargs_ps : kwargs) (kwargs_special : kwargs1)
  : M Np.matrix :=
  '(ra_pos, dec_pos, amp, num_param) ←
    point_source_linear_response_set self kwargs_ps kwargs_lens
      kwargs_special;
  let num_response := num_data_evaluate (super self) in
  let A := Np.zeros2 num_param num_response in
  A ← lift (response_rows self ra_pos dec_pos amp (seq 0 num_param) A);
  mret (Np.nan_to_num A).

Definition update_linear_kwargs_point_source (self : instance)
    (param : Np.array) (kwargs_lens kwargs_ps : kwargs)
  : M (kwargs * kwargs) :=
  let i := 0%nat in
  ps ← lift (attr (PointSource (super self)) MSG_NONE_PS);
  '(kwargs_ps, i) ← update_linear ps param i kwargs_ps kwargs_lens;
  mret (kwargs_lens, kwargs_ps).

Definition _image_linear_solve_point_sources (self : instance)
    (sparse_model : Np.matrix) (kwargs_lens kwargs_ps : kwargs)
    (kwargs_special : kwargs1) (inv_bool : bool)
  : M (Np.matrix * Np.matrix * Np.matrix * Np.array) :=
  A ← point_source_linear_response_matrix self kwargs_lens kwargs_ps
        kwargs_special;
  '(C_D_response, model_error) ←
    _error_response self kwargs_lens kwargs_ps kwargs_special;
  d ← lift (Np.sub (data_response (super self))
              (image2array_masked self sparse_model));
  '(param, cov_param, wls_model) ←
    lift (get_param_WLS
            (Np.transpose (num_data_evaluate (super self)) A)
            (Np.reciprocal C_D_response) d inv_bool);
  update_linear_kwargs_point_source self param kwargs_lens kwargs_ps;;
  let model := array_masked2image self wls_model in
  mret (model, model_error, cov_param, param).

End Methods.

End ImageSparseFit.

(** ** The multi-Gaussian elliptical convergence profile *)

Module MultiGaussianEllipseKappa.

(** The single-Gaussian profile held in [self.gaussian_ellipse_kappa]:
    its Hessian at the points [(x, y)] for one amplitude and width. *)
Class GaussianEllipseKappa := {
  gaussian_ellipse_kappa_hessian :
    Np.array -> Np.array -> float -> float -> float -> float -> float ->
    float -> Np.array * Np.array * Np.array * Np.array
}.

Section Methods.
Context `{GaussianEllipseKappa}.

(** The loop of [hessian] over the indices [idx] still to be done,
    with the three accumulators. *)
Fixpoint hessian_loop (x y : Np.array) (amp sigma : Np.array)
    (e1 e2 center_x center_y : float) (idx : list nat)
    (f_xx f_yy f_xy : Np.array)
  : result (Np.array * Np.array * Np.array) :=
  match idx with
  | [] => Ok (f_xx, f_yy, f_xy)
  | i :: idx' =>
      amp_i ← getitem amp i;
      sigma_i ← getitem sigma i;
      let '(f_xx_i, f_xy_i, _, f_yy_i) :=
        gaussian_ellipse_kappa_hessian x y amp_i sigma_i e1 e2
          center_x center_y in
      f_xx ← Np.iadd f_xx f_xx_i;
      f_yy ← Np.iadd f_yy f_yy_i;
      f_xy ← Np.iadd f_xy f_xy_i;
      hessian_loop x y amp sigma e1 e2 center_x center_y idx'
        f_xx f_yy f_xy
  end.

Definition hessian (x y : Np.array) (amp sigma : Np.array)
    (e1 e2 center_x center_y : float)
  : result (Np.array * Np.array * Np.array * Np.array) :=
  let f_xx := Np.zeros_like x in
  let f_yy := Np.zeros_like x in
  let f_xy := Np.zeros_like x in
  '(f_xx, f_yy, f_xy) ←
    hessian_loop x y amp sigma e1 e2 center_x center_y
      (seq 0 (length amp)) f_xx f_yy f_xy;
  Ok (f_xx, f_xy, f_xy, f_yy).

End Methods.

End MultiGaussianEllipseKappa.

(** ** Notions used in the statements *)

Import ImageSparseFit.

(** A model list that consists of one pixel-basis starlet profile. *)
Definition single_starlet (model_list : list string) : Prop :=
  ∃ p, model_list = [p] ∧ (p = "STARLETS" ∨ p = "STARLETS_GEN2").

(** A PSF error map with an entry that does not compare equal to zero,
    and one whose entries all do. *)
Definition nonzero_error_map (m : Np.matrix) : Prop :=
  ∃ row x, row ∈ m ∧ x ∈ row ∧ (x =? 0)%float = false.

Definition zero_error_map (m : Np.matrix) : Prop :=
  ∀ row x, row ∈ m → x ∈ row → (x =? 0)%float = true.


(** The two sparse modes that require a single starlet profile, with the
    model list each one inspects, the solver it builds and the message
    of its configuration error. *)
Inductive starlet_mode := SourceOnly | SourcePlusLensLight.

Definition mode_selected (s : ImageFit) (m : starlet_mode) : Prop :=
  no_point_sources s = true ∧
  no_lens_light s = match m with SourceOnly => true | SourcePlusLensLight => false end.

Definition mode_model (s : ImageFit) (m : starlet_mode) : option light_model :=
  match m with
  | SourceOnly => SourceModel s
  | SourcePlusLensLight => LensLightModel s
  end.

Definition mode_solver (m : starlet_mode) : sparse_solver :=
  match m with
  | SourceOnly => SparseSolverSource
  | SourcePlusLensLight => SparseSolverSourceLens
  end.

Definition mode_error (m : starlet_mode) : exn :=
  match m with
  | SourceOnly => ValueError MSG_SOURCE
  | SourcePlusLensLight => ValueError MSG_LENS_LIGHT
  end.

(** The first dictionary of a keyword list. *)
Definition first_dict (kw : kwargs) : option loc := kw ≫= head.

(** The dictionary at [l] holds the value [v] under each key of [keys]. *)
Definition has_fields (h : gmap loc pydict) (l : loc)
    (fields : list (string * pyval)) : Prop :=
  ∃ d, h !! l = Some d ∧ ∀ k v, (k, v) ∈ fields → d !! k = Some v.

Section Geometry.
Context `{Collaborators}.

(** The grid geometry of the source plane and of the image plane, as
    keyword entries. *)
Definition source_geometry (self : instance) : list (string * pyval) :=
  let D := Data (super self) in
  [("n_pixels", VInt (num_pixel D * _subgrid_res_source self ^ 2));
   ("scale", VFloat (true_divide (pixel_width D) (_subgrid_res_source self)));
   ("center_x", VInt 0);
   ("center_y", VInt 0)].

Definition lens_light_geometry (self : instance) : list (string * pyval) :=
  let D := Data (super self) in
  [("n_pixels", VInt (num_pixel D));
   ("scale", VFloat (pixel_width D));
   ("center_x", VInt 0);
   ("center_y", VInt 0)].

(** The four assignments to the source dictionary, and those to the
    lens-light dictionary. *)
Definition write_source (self : instance) (d : pydict) : pydict :=
  <["center_y" := VInt 0]> (<["center_x" := VInt 0]>
  (<["scale" := VFloat (true_divide (pixel_width (Data (super self)))
                          (_subgrid_res_source self))]>
  (<["n_pixels" := VInt (num_pixel (Data (super self))
                         * _subgrid_res_source self ^ 2)]> d))).

Definition write_lens_light (self : instance) (d : pydict) : pydict :=
  <["center_y" := VInt 0]> (<["center_x" := VInt 0]>
  (<["scale" := VFloat (pixel_width (Data (super self)))]>
  (<["n_pixels" := VInt (num_pixel (Data (super self)))]> d))).

(** The heap after the call. *)
Definition updated_heap (self : instance) (l : loc) (kll : kwargs)
    (h : gmap loc pydict) : gmap loc pydict :=
  match first_dict kll with
  | Some l2 => alter (write_lens_light self) l2 (alter (write_source self) l h)
  | None => alter (write_source self) l h
  end.

(** Row [i] of the point-source response before [nan_to_num]: the
    masked image of the [i]-th group of point sources. *)
Definition rendered_row (self : instance) (ra_pos dec_pos amp : list Np.array)
    (i : nat) : option Np.array :=
  ra ← ra_pos !! i;
  dec ← dec_pos !! i;
  a ← amp !! i;
  Some (image2array_masked self (point_source_rendering self ra dec a)).

(** The lens light on the image grid, as the light model evaluates it
    from the keywords in the heap [h]. *)
Definition lens_light_image (self : instance) (kwargs_lens_light : kwargs)
    (k : option nat) (h : gmap loc pydict) : result Np.matrix :=
  llm ← attr (LensLightModel (super self)) MSG_NONE_SB;
  lens_light ←
    surface_brightness llm (coordinates_evaluate self).1
      (coordinates_evaluate self).2 kwargs_lens_light k h;
  array2image lens_light.

End Geometry.

(** The single-Gaussian Hessian returns arrays of the shape of [x]. *)
Definition hessian_shaped `{MultiGaussianEllipseKappa.GaussianEllipseKappa}
    (x y : Np.array) (e1 e2 center_x center_y : float) : Prop :=
  ∀ a s,
    let '(f_xx_i, f_xy_i, _, f_yy_i) :=
      MultiGaussianEllipseKappa.gaussian_ellipse_kappa_hessian
        x y a s e1 e2 center_x center_y in
    length f_xx_i = length x ∧ length f_xy_i = length x
    ∧ length f_yy_i = length x.

(** ** Concrete configurations *)

Module Demo.

Definition data : image_data :=
  {| num_pixel := 4; pixel_width := 0.5%float |}.

(** A fit of a two-by-two image with the given model lists and PSF
    error map. *)
Definition fit (source lens_light ps : list string) (error_map : Np.matrix)
  : ImageFit :=
  {| Data := data;
     PSF := {| psf_error_map := error_map |};
     SourceModel := Some {| profile_type_list := source |};
     LensLightModel := Some {| profile_type_list := lens_light |};
     PointSource := Some {| point_source_type_list := ps |};
     likelihood_mask := [[true; true]; [true; true]];
     data_response := [1; 2; 3; 4]%float;
     num_data_evaluate := 4 |}.

Definition w0 : world := World ∅ [].

(** A heap with a source dictionary at 1, a lens-light dictionary at 2
    and a point-source dictionary at 3. *)
Definition w1 : world :=
  World (<[1%positive := {[ "amp" := VArray [1; 2; 3; 4]%float ]}]>
         (<[2%positive := {[ "amp" := VArray [5; 6; 7; 8]%float ]}]>
         (<[3%positive := {[ "point_amp" := VArray [1]%float ]}]> ∅))) [].

Definition float_of_int (z : Z) : float :=
  if (z <? 0)%Z then (- of_uint63 (Uint63.of_Z (- z)))%float
  else of_uint63 (Uint63.of_Z z).

Definition sum (a : Np.array) : float := foldr PrimFloat.add 0%float a.

(** Weighted least squares for one linear parameter: the response is
    the first column of [AT]. *)
Definition wls1 (AT : Np.matrix) (w d : Np.array) (inv_bool : bool)
  : result (Np.array * Np.matrix * Np.array) :=
  let a := map (fun row => default 0%float (row !! 0%nat)) AT in
  let num := sum (zip_with PrimFloat.mul (zip_with PrimFloat.mul a w) d) in
  let den := sum (zip_with PrimFloat.mul (zip_with PrimFloat.mul a w) a) in
  let p := (num / den)%float in
  Ok ([p], (if inv_bool then [[(1 / den)%float]] else []),
      map (fun x => (x * p)%float) a).

(** Collaborators for a two-by-two image with one point source.  The
    model error is zero when no lens keywords are given; the rendered
    point source has an undefined pixel. *)
Definition collaborators : Collaborators := {|
  _error_response _ kwargs_lens _ _ :=
    mret ([1; 1; 1; 4]%float,
          if kwargs_lens is None then [[0; 0]; [0; 0]]%float
          else [[1; 1]; [1; 1]]%float);
  point_source _ _ _ _ := mret [[0; 0]; [0; 0]]%float;
  update_linear_kwargs _ param kl ks kll kps :=
    setitem0 ks "amp" (VArray param);; mret (kl, ks, kll, kps);
  point_source_linear_response_set _ _ _ _ :=
    mret ([[0.5]], [[0.5]], [[1]], 1%nat)%float;
  image2array_masked _ img := concat img;
  array_masked2image _ a := [take 2 a; drop 2 a];
  coordinates_evaluate _ := ([0; 1; 0; 1], [0; 0; 1; 1])%float;
  point_source_rendering _ _ _ _ := [[nan; 1]; [0.5; 0]]%float;
  surface_brightness _ _ _ kw _ h :=
    match kw with
    | Some (l :: _) =>
        match h !! l ≫= (.!! "amp") with
        | Some (VArray a) => Ok a
        | _ => Raise (ValueError "amp")
        end
    | _ => Raise IndexError
    end;
  update_linear _ param i kps _ :=
    setitem0 kps "point_amp" (VArray param);;
    mret (kps, (i + length param)%nat);
  log_likelihood _ im _ err :=
    (- sum (zip_with (fun m e => m * m / e) (concat im) (concat err)))%float;
  solve _ _ _ _ _ _ init := mret ([[1; 2]; [3; 4]]%float, [4; 3; 2; 1]%float);
  get_param_WLS := wls1;
  array2image a := Ok [take 2 a; drop 2 a];
  true_divide x z := (x / float_of_int z)%float
|}.

Definition source_only_default : instance :=
  {| super := fit ["STARLETS"] [] [] [];
     _subgrid_res_source := 1;
     sparseSolver := Some SparseSolverSource |}.

Definition source_only : instance :=
  {| super := fit ["STARLETS"] [] [] [];
     _subgrid_res_source := 2;
     sparseSolver := Some SparseSolverSource |}.

Definition with_lens_light : instance :=
  {| super := fit ["STARLETS"] ["STARLETS"] [] [];
     _subgrid_res_source := 2;
     sparseSolver := Some SparseSolverSourceLens |}.

Definition with_point_source : instance :=
  {| super := fit ["STARLETS"] [] ["LENSED_POSITION"] [];
     _subgrid_res_source := 1;
     sparseSolver := Some SparseSolverSourcePS |}.

(** A stand-in for the single-Gaussian profile: second derivatives of
    [amp * (x² + x y + y²) / sigma]. *)
Definition gaussian : MultiGaussianEllipseKappa.GaussianEllipseKappa := {|
  MultiGaussianEllipseKappa.gaussian_ellipse_kappa_hessian x y a s _ _ _ _ :=
    (map (fun _ => (2 * a / s)%float) x,
     map (fun _ => (a / s)%float) x,
     map (fun _ => (a / s)%float) x,
     map (fun _ => (2 * a / s)%float) x)
|}.

End Demo.

(** ** Further notions *)

(** The image of a result under a function. *)
Definition result_map {A B} (f : A -> B) (r : result A) : result B :=
  match r with
  | Ok a => Ok (f a)
  | Raise e => Raise e
  end.

(** The attributes [s] with another source model. *)
Definition with_source (s : ImageFit) (sm : option light_model) : ImageFit :=
  {| Data := Data s;
     PSF := PSF s;
     SourceModel := sm;
     LensLightModel := LensLightModel s;
     PointSource := PointSource s;
     likelihood_mask := likelihood_mask s;
     data_response := data_response s;
     num_data_evaluate := num_data_evaluate s |}.

(** The keys that [update_fixed_param] assigns. *)
Definition GEOMETRY_KEYS : list string :=
  ["n_pixels"; "scale"; "center_x"; "center_y"].

(** The collaborators of the examples, with two linear point-source
    parameters announced for the positions of one. *)
Definition collaborators_two_params : Collaborators := {|
  _error_response := @_error_response Demo.collaborators;
  point_source := @point_source Demo.collaborators;
  update_linear_kwargs := @update_linear_kwargs Demo.collaborators;
  point_source_linear_response_set _ _ _ _ :=
    mret ([[0.5]], [[0.5]], [[1]], 2%nat)%float;
  image2array_masked := @image2array_masked Demo.collaborators;
  array_masked2image := @array_masked2image Demo.collaborators;
  coordinates_evaluate := @coordinates_evaluate Demo.collaborators;
  point_source_rendering := @point_source_rendering Demo.collaborators;
  surface_brightness := @surface_brightness Demo.collaborators;
  update_linear := @update_linear Demo.collaborators;
  log_likelihood := @log_likelihood Demo.collaborators;
  solve := @solve Demo.collaborators;
  get_param_WLS := @get_param_WLS Demo.collaborators;
  array2image := @array2image Demo.collaborators;
  true_divide := @true_divide Demo.collaborators
|}.

(** ** The multi-Gaussian profile: potential, deflection, convergence *)

Module MultiGaussianEllipseKappaProfile.

(** The other methods of the single-Gaussian profile held in
    [self.gaussian_ellipse_kappa], at the points [(x, y)] for one
    amplitude and width. *)
Class GaussianEllipseKappaProfile := {
  gaussian_ellipse_kappa_function :
    Np.array -> Np.array -> float -> float -> float -> float -> float ->
    float -> Np.array;
  gaussian_ellipse_kappa_derivatives :
    Np.array -> Np.array -> float -> float -> float -> float -> float ->
    float -> Np.array * Np.array;
  gaussian_ellipse_kappa_density_2d :
    Np.array -> Np.array -> float -> float -> float -> float -> float ->
    float -> Np.array
}.

Section Methods.
Context `{GaussianEllipseKappaProfile}.

(** The loop of [function] over the indices [idx] still to be done. *)
Fixpoint function_loop (x y : Np.array) (amp sigma : Np.array)
    (e1 e2 center_x center_y : float) (idx : list nat) (function : Np.array)
  : result Np.array :=
  match idx with
  | [] => Ok function
  | i :: idx' =>
      amp_i ← getitem amp i;
      sigma_i ← getitem sigma i;
      function ← Np.iadd function
        (gaussian_ellipse_kappa_function x y amp_i sigma_i e1 e2
           center_x center_y);
      function_loop x y amp sigma e1 e2 center_x center_y idx' function
  end.

Definition function (x y : Np.array) (amp sigma : Np.array)
    (e1 e2 center_x center_y : float) : result Np.array :=
  let function := Np.zeros_like x in
  function_loop x y amp sigma e1 e2 center_x center_y
    (seq 0 (length amp)) function.

(** The loop of [derivatives]. *)
Fixpoint derivatives_loop (x y : Np.array) (amp sigma : Np.array)
    (e1 e2 center_x center_y : float) (idx : list nat) (f_x f_y : Np.array)
  : result (Np.array * Np.array) :=
  match idx with
  | [] => Ok (f_x, f_y)
  | i :: idx' =>
      amp_i ← getitem amp i;
      sigma_i ← getitem sigma i;
      let '(f_x_i, f_y_i) :=
        gaussian_ellipse_kappa_derivatives x y amp_i sigma_i e1 e2
          center_x center_y in
      f_x ← Np.iadd f_x f_x_i;
      f_y ← Np.iadd f_y f_y_i;
      derivatives_loop x y amp sigma e1 e2 center_x center_y idx' f_x f_y
  end.

Definition derivatives (x y : Np.array) (amp sigma : Np.array)
    (e1 e2 center_x center_y : float) : result (Np.array * Np.array) :=
  let f_x := Np.zeros_like x in
  let f_y := Np.zeros_like x in
  derivatives_loop x y amp sigma e1 e2 center_x center_y
    (seq 0 (length amp)) f_x f_y.

(** The loop of [density_2d]. *)
Fixpoint density_2d_loop (x y : Np.array) (amp sigma : Np.array)
    (e1 e2 center_x center_y : float) (idx : list nat) (density_2d : Np.array)
  : result Np.array :=
  match idx with
  | [] => Ok density_2d
  | i :: idx' =>
      amp_i ← getitem amp i;
      sigma_i ← getitem sigma i;
      density_2d ← Np.iadd density_2d
        (gaussian_ellipse_kappa_density_2d x y amp_i sigma_i e1 e2
           center_x center_y);
      density_2d_loop x y amp sigma e1 e2 center_x center_y idx' density_2d
  end.

Definition density_2d (x y : Np.array) (amp sigma : Np.array)
    (e1 e2 center_x center_y : float) : result Np.array :=
  let density_2d := Np.zeros_like x in
  density_2d_loop x y amp sigma e1 e2 center_x center_y
    (seq 0 (length amp)) density_2d.

End Methods.

End MultiGaussianEllipseKappaProfile.

(** ** Loops over indices, and sums of arrays *)

(** A loop that threads a state through the indices [idx] and stops at
    the first exception. *)
Fixpoint loop_over {S : Type} (step : nat -> S -> result S) (idx : list nat)
    (s : S) : result S :=
  match idx with
  | [] => Ok s
  | i :: idx' =>
      match step i s with
      | Ok s' => loop_over step idx' s'
      | Raise e => Raise e
      end
  end.

(** The elementwise sum, from the left and starting at zero, of arrays of
    the shape of [x]. *)
Definition sum_arrays (x : Np.array) (terms : list Np.array) : Np.array :=
  foldl (zip_with PrimFloat.add) (Np.zeros_like x) terms.

Section Steps.
Import MultiGaussianEllipseKappa MultiGaussianEllipseKappaProfile.
Context `{GaussianEllipseKappa} `{GaussianEllipseKappaProfile}.
Context (x y amp sigma : Np.array) (e1 e2 center_x center_y : float).

(** One round of each of the four loops. *)
Definition hessian_step (i : nat) (acc : Np.array * Np.array * Np.array)
  : result (Np.array * Np.array * Np.array) :=
  let '(f_xx, f_yy, f_xy) := acc in
  amp_i ← getitem amp i;
  sigma_i ← getitem sigma i;
  let '(f_xx_i, f_xy_i, _, f_yy_i) :=
    gaussian_ellipse_kappa_hessian x y amp_i sigma_i e1 e2
      center_x center_y in
  f_xx ← Np.iadd f_xx f_xx_i;
  f_yy ← Np.iadd f_yy f_yy_i;
  f_xy ← Np.iadd f_xy f_xy_i;
  Ok (f_xx, f_yy, f_xy).

Definition function_step (i : nat) (acc : Np.array) : result Np.array :=
  amp_i ← getitem amp i;
  sigma_i ← getitem sigma i;
  Np.iadd acc
    (gaussian_ellipse_kappa_function x y amp_i sigma_i e1 e2
       center_x center_y).

Definition derivatives_step (i : nat) (acc : Np.array * Np.array)
  : result (Np.array * Np.array) :=
  let '(f_x, f_y) := acc in
  amp_i ← getitem amp i;
  sigma_i ← getitem sigma i;
  let '(f_x_i, f_y_i) :=
    gaussian_ellipse_kappa_derivatives x y amp_i sigma_i e1 e2
      center_x center_y in
  f_x ← Np.iadd f_x f_x_i;
  f_y ← Np.iadd f_y f_y_i;
  Ok (f_x, f_y).

Definition density_2d_step (i : nat) (acc : Np.array) : result Np.array :=
  amp_i ← getitem amp i;
  sigma_i ← getitem sigma i;
  Np.iadd acc
    (gaussian_ellipse_kappa_density_2d x y amp_i sigma_i e1 e2
       center_x center_y).

(** The Hessians, potentials, deflections and convergences of the
    components: one for each amplitude that has a width. *)
Definition component_hessians
  : list (Np.array * Np.array * Np.array * Np.array) :=
  zip_with (fun a s =>
              gaussian_ellipse_kappa_hessian x y a s e1 e2 center_x center_y)
    amp sigma.

Definition component_functions : list Np.array :=
  zip_with (fun a s =>
              gaussian_ellipse_kappa_function x y a s e1 e2 center_x center_y)
    amp sigma.

Definition component_derivatives : list (Np.array * Np.array) :=
  zip_with (fun a s =>
              gaussian_ellipse_kappa_derivatives x y a s e1 e2
                center_x center_y)
    amp sigma.

Definition component_densities : list Np.array :=
  zip_with (fun a s =>
              gaussian_ellipse_kappa_density_2d x y a s e1 e2
                center_x center_y)
    amp sigma.

End Steps.

(** Every value that [r] can return satisfies [P]. *)
Definition returns_only {A} (P : A -> Prop) (r : result A) : Prop :=
  match r with
  | Ok a => P a
  | Raise _ => True
  end.

(** The potential, the deflection and the convergence of a single
    Gaussian have the shape of [x]. *)
Definition profile_shaped
    `{MultiGaussianEllipseKappaProfile.GaussianEllipseKappaProfile}
    (x y : Np.array) (e1 e2 center_x center_y : float) : Prop :=
  ∀ a s,
    length (MultiGaussianEllipseKappaProfile.gaussian_ellipse_kappa_function
              x y a s e1 e2 center_x center_y) = length x
    ∧ length (MultiGaussianEllipseKappaProfile.gaussian_ellipse_kappa_derivatives
                x y a s e1 e2 center_x center_y).1 = length x
    ∧ length (MultiGaussianEllipseKappaProfile.gaussian_ellipse_kappa_derivatives
                x y a s e1 e2 center_x center_y).2 = length x
    ∧ length (MultiGaussianEllipseKappaProfile.gaussian_ellipse_kappa_density_2d
                x y a s e1 e2 center_x center_y) = length x.

(** A stand-in for the other methods of the single-Gaussian profile. *)
Definition gaussian_profile
  : MultiGaussianEllipseKappaProfile.GaussianEllipseKappaProfile := {|
  MultiGaussianEllipseKappaProfile.gaussian_ellipse_kappa_function
    x y a s _ _ _ _ :=
    zip_with (fun xi yi => (a * (xi * xi + xi * yi + yi * yi) / s)%float) x y;
  MultiGaussianEllipseKappaProfile.gaussian_ellipse_kappa_derivatives
    x y a s _ _ _ _ :=
    (zip_with (fun xi yi => (a * (2 * xi + yi) / s)%float) x y,
     zip_with (fun xi yi => (a * (xi + 2 * yi) / s)%float) x y);
  MultiGaussianEllipseKappaProfile.gaussian_ellipse_kappa_density_2d
    x y a s _ _ _ _ :=
    map (fun _ => (2 * a / s)%float) x
|}.

(** ** The base class of the point-source types *)

Module BasePS.

(** [l[i]] for a Python integer [i]: negative indices count from the
    end. *)
Definition py_getitem {A} (l : list A) (i : Z) : result A :=
  let n := Z.of_nat (length l) in
  if (0 <=? i)%Z && (i <? n)%Z then getitem l (Z.to_nat i)
  else if (- n <=? i)%Z && (i <? 0)%Z then getitem l (Z.to_nat (n + i))
  else Raise IndexError.

Section PSBase.
Context {LensModel : Type}.

(** [LensEquationSolver(lens_model)]: the solver of a lens model. *)
Record LensEquationSolver := { solver_lens_model : LensModel }.

(** The attributes of an instance. *)
Record PSBase := {
  _redshift : option float;
  _lens_model : option LensModel;
  k_list : option (list (list Z));
  _solver : option LensEquationSolver;
  _fixed_magnification : bool;
  additional_images : bool
}.

(** The loop of [__init__] over the frames still to be done. *)
Fixpoint k_list_loop (index_lens_model_list : list (list Z))
    (point_source_frame_list : list Z) (k_list : list (list Z))
  : result (list (list Z)) :=
  match point_source_frame_list with
  | [] => Ok k_list
  | point_source_frame :: frames =>
      k ← py_getitem index_lens_model_list point_source_frame;
      k_list_loop index_lens_model_list frames (k_list ++ [k])
  end.

(** [__init__]; iterating over [point_source_frame_list = None] is a
    [TypeError]; the [Warning(...)] of the last statement is built and
    dropped. *)
Definition __init__ (lens_model : option LensModel)
    (fixed_magnification additional_images : bool)
    (index_lens_model_list : option (list (list Z)))
    (point_source_frame_list : option (list Z)) (redshift : option float)
  : result PSBase :=
  k_list ←
    match index_lens_model_list with
    | Some index_lens_model_list =>
        match point_source_frame_list with
        | Some frames =>
            k_list ← k_list_loop index_lens_model_list frames [];
            Ok (Some k_list)
        | None => Raise TypeError
        end
    | None => Ok None
    end;
  let solver :=
    match lens_model with
    | None => None
    | Some lens_model => Some {| solver_lens_model := lens_model |}
    end in
  Ok {| _redshift := redshift;
        _lens_model := lens_model;
        k_list := k_list;
        _solver := solver;
        _fixed_magnification := fixed_magnification;
        additional_images := additional_images |}.

Definition MSG_IMAGE_POSITION : string :=
  "image_position definition is not defined in the profile you want to execute.".

Definition MSG_SOURCE_POSITION : string :=
  "source_position definition is not defined in the profile you want to execute.".

Definition image_position {K A} (self : PSBase) (kwargs_ps : K) : result A :=
  Raise (ValueError MSG_IMAGE_POSITION).

Definition source_position {K A} (self : PSBase) (kwargs_ps : K) : result A :=
  Raise (ValueError MSG_SOURCE_POSITION).

Definition image_amplitude {K A} (self : PSBase) (kwargs_ps : K) : result A :=
  Raise (ValueError MSG_SOURCE_POSITION).

Definition source_amplitude {K A} (self : PSBase) (kwargs_ps : K) : result A :=
  Raise (ValueError MSG_SOURCE_POSITION).

Definition update_lens_model (self : PSBase)
    (lens_model_class : option LensModel) : PSBase :=
  {| _redshift := _redshift self;
     _lens_model := lens_model_class;
     k_list := k_list self;
     _solver :=
       match lens_model_class with
       | None => None
       | Some lens_model => Some {| solver_lens_model := lens_model |}
       end;
     _fixed_magnification := _fixed_magnification self;
     additional_images := additional_images self |}.

End PSBase.

(** The argument of [_expand_to_array] and [_shrink_array]: a number or
    a one-dimensional array. *)
Inductive scalar_or_array :=
| Scalar (x : float)
| Array (xs : Np.array).

(** [out = np.zeros(num); out[0:len(array)] = array] for an array that
    is not longer than [out]. *)
Definition zeros_with_prefix (num : nat) (array : Np.array) : Np.array :=
  array ++ drop (length array) (replicate num 0%float).

Definition _expand_to_array (array : scalar_or_array) (num : nat) : Np.array :=
  match array with
  | Scalar x => map (fun one => (one * x)%float) (replicate num 1%float)
  | Array xs =>
      if (length xs <? num)%nat then zeros_with_prefix num xs else xs
  end.

Definition MSG_SHRINK (len num : nat) : string :=
  "the length of the array (" +:+ pretty len
  +:+ ") needs to be larger or equal than the designated length "
  +:+ pretty num +:+ " ".

Definition _shrink_array (array : scalar_or_array) (num : nat)
  : result scalar_or_array :=
  match array with
  | Scalar x => Ok (Scalar x)
  | Array xs =>
      if (num <? length xs)%nat then Ok (Array (take num xs))
      else if (length xs <? num)%nat then
        Raise (ValueError (MSG_SHRINK (length xs) num))
      else Ok (Array xs)
  end.

End BasePS.

(** ** Labels of the images of a point source in [lens_plot] *)

Module LensPlot.

Definition _NAME_LIST : list string :=
  ["A"; "B"; "C"; "D"; "E"; "F"; "G"; "H"; "I"; "J"; "K"].

(** The loop [for i in range(len(name_list)):
    name_list_.append(str(index + 1) + name_list[i])] of
    [point_source_plot], over the indices [idx] still to be done. *)
Fixpoint names_loop (name_list : list string) (index : Z) (idx : list nat)
    (name_list_ : list string) : result (list string) :=
  match idx with
  | [] => Ok name_list_
  | i :: idx' =>
      name ← getitem name_list i;
      names_loop name_list index idx'
        (name_list_ ++ [pretty (index + 1)%Z +:+ name])
  end.

(** The first block of [point_source_plot]: the list [name_list_] of the
    names of the images, from [name_list] and the integer [index]. *)
Definition image_names (name_list : option (list string)) (index : option Z)
  : result (list string) :=
  let name_list_ := [] in
  match name_list, index with
  | None, None => Ok _NAME_LIST
  | None, Some index =>
      let name_list := _NAME_LIST in
      names_loop name_list index (seq 0 (length name_list)) name_list_
  | Some name_list, None => Ok name_list
  | Some name_list, Some index =>
      names_loop name_list index (seq 0 (length name_list)) name_list_
  end.

(** What is drawn on the axis: [ax.plot(x, y, fmt, markersize=...,
    alpha=...)] and [ax.text(x, y, s, fontsize=..., color=...)]. *)
Inductive draw :=
| Plot (x y : float) (fmt : string) (markersize alpha : float)
| Text (x y : float) (s : string) (fontsize : Z) (color : string).

Section PointSourcePlot.
(** [np.log] *)
Context (log : float -> float).

(** The loop [for i in range(len(x_image))] of [point_source_plot] that
    draws a marker and a name for each image, over the indices [idx]
    still to be done; [ax] is what has been drawn. *)
Fixpoint draw_images (x_image y_image mag_images : Np.array)
    (delta_pix_x delta_pix : float) (origin : float * float)
    (name_list_ : list string) (color : string) (idx : list nat)
    (ax : list draw) : list draw * result unit :=
  match idx with
  | [] => (ax, Ok tt)
  | i :: idx' =>
      match getitem x_image i with
      | Raise e => (ax, Raise e)
      | Ok x_i =>
          let x_ := (x_i * delta_pix_x + origin.1)%float in
          match getitem y_image i with
          | Raise e => (ax, Raise e)
          | Ok y_i =>
              let y_ := (y_i * delta_pix + origin.2)%float in
              match getitem mag_images i with
              | Raise e => (ax, Raise e)
              | Ok mag =>
                  let ax :=
                    ax ++ [Plot x_ y_ ("d" +:+ color)
                             (4 * (1 + log (abs mag)))%float 0.5%float] in
                  match getitem name_list_ i with
                  | Raise e => (ax, Raise e)
                  | Ok name =>
                      draw_images x_image y_image mag_images delta_pix_x
                        delta_pix origin name_list_ color idx'
                        (ax ++ [Text x_ y_ name 20 color])
                  end
              end
          end
      end
  end.

End PointSourcePlot.

(** The names written, and the number of markers drawn. *)
Definition texts (ax : list draw) : list string :=
  omap (fun d => match d with Text _ _ s _ _ => Some s | Plot _ _ _ _ _ => None end) ax.

Definition markers (ax : list draw) : nat :=
  length (omap (fun d => match d with Plot _ _ _ _ _ => Some d | Text _ _ _ _ _ => None end) ax).

End LensPlot.
(** * Properties *)

(** ** Basic facts about the monad and about arrays *)

Lemma bind_Ok {A B} (m : M A) (k : A -> M B) w w' a :
  m w = (w', Ok a) -> (m ≫= k) w = k a w'.
Proof. intros E. unfold mbind, M_bind, bind. by rewrite E. Qed.

Lemma bind_Raise {A B} (m : M A) (k : A -> M B) w w' e :
  m w = (w', Raise e) -> (m ≫= k) w = (w', Raise e).
Proof. intros E. unfold mbind, M_bind, bind. by rewrite E. Qed.

Lemma nan_to_num1_not_nan x : is_nan (Np.nan_to_num1 x) = false.
Proof.
  unfold Np.nan_to_num1.
  destruct (is_nan x) eqn:E; [reflexivity|].
  destruct (x =? infinity)%float; [reflexivity|].
  destruct (x =? neg_infinity)%float; [reflexivity|].
  exact E.
Qed.

Lemma nan_to_num1_nan x : is_nan x = true -> Np.nan_to_num1 x = 0%float.
Proof. intros E. unfold Np.nan_to_num1. by rewrite E. Qed.

(** ** Construction: selection of the solver *)

Lemma not_single_starlet_false model_list :
  not_single_starlet model_list = false ↔ single_starlet model_list.
Proof.
  unfold not_single_starlet, single_starlet, STARLET_PROFILES. split.
  - case_bool_decide as Hlen; simpl; [|done].
    destruct model_list as [|p [|q l]]; simplify_eq/=.
    intros Hin. apply negb_false_iff, bool_decide_eq_true in Hin.
    exists p. split; [done|].
    rewrite !elem_of_cons, elem_of_nil in Hin. tauto.
  - intros (p & -> & Hp). simpl.
    apply negb_false_iff, bool_decide_eq_true.
    rewrite !elem_of_cons. tauto.
Qed.

Lemma not_single_starlet_true model_list :
  not_single_starlet model_list = true ↔ ¬ single_starlet model_list.
Proof.
  rewrite <- not_single_starlet_false.
  destruct (not_single_starlet model_list); naive_solver.
Qed.

Lemma all_zero_true m : Np.all_zero m = true ↔ zero_error_map m.
Proof.
  unfold Np.all_zero, zero_error_map.
  rewrite forallb_forall. split.
  - intros Hall row x Hrow Hx.
    apply list_elem_of_In in Hrow. specialize (Hall row Hrow).
    rewrite forallb_forall in Hall. apply Hall. by apply list_elem_of_In.
  - intros Hall row Hrow. rewrite forallb_forall. intros x Hx.
    apply (Hall row x); by apply list_elem_of_In.
Qed.

Lemma all_zero_false m : Np.all_zero m = false ↔ nonzero_error_map m.
Proof.
  unfold nonzero_error_map. split.
  - intros E. unfold Np.all_zero in E.
    induction m as [|row m IH]; [done|]. simpl in E.
    apply andb_false_iff in E as [E|E].
    + exists row. clear IH.
      induction row as [|x row IH]; [done|]. simpl in E.
      apply andb_false_iff in E as [E|E].
      * exists x. split; [left|split; [left|done]].
      * destruct (IH E) as (y & _ & Hy & Hne).
        exists y. split; [left|split; [by right|done]].
    + destruct (IH E) as (r & x & Hr & Hx & Hne).
      exists r, x. split; [by right|done].
  - intros (row & x & Hrow & Hx & Hne).
    destruct (Np.all_zero m) eqn:E; [|done].
    apply all_zero_true in E. rewrite (E row x Hrow Hx) in Hne. done.
Qed.

(** With lens light and point sources both present no branch of the
    selection is taken: construction returns, and the instance has no
    solver. *)
Lemma init_both_present s res w :
  no_lens_light s = false → no_point_sources s = false →
  __init__ s res w =
    (w, Ok {| super := s; _subgrid_res_source := default 1%Z res;
              sparseSolver := None |}).
Proof. intros Hl Hp. unfold __init__. by rewrite Hl, Hp. Qed.

(** C1: with a lens-light model list and a point-source model list that
    are both non-empty, construction raises nothing: it returns an
    instance on which no solver was set. *)
Theorem init_lens_light_and_point_sources :
  __init__ (Demo.fit ["STARLETS"] ["STARLETS"] ["LENSED_POSITION"] [[0%float]])
    None Demo.w0
  = (Demo.w0,
     Ok {| super := Demo.fit ["STARLETS"] ["STARLETS"] ["LENSED_POSITION"]
                      [[0%float]];
           _subgrid_res_source := 1;
           sparseSolver := None |}).
Proof. by apply init_both_present. Qed.

Example init_examples :
  snd (__init__ (Demo.fit ["STARLETS"] [] [] []) None Demo.w0)
    = Ok Demo.source_only_default
  ∧ snd (__init__ (Demo.fit ["SERSIC"] [] [] []) None Demo.w0)
    = Raise (ValueError MSG_SOURCE)
  ∧ snd (__init__ (Demo.fit ["STARLETS"; "STARLETS"] [] [] []) None Demo.w0)
    = Raise (ValueError MSG_SOURCE)
  ∧ snd (__init__ (Demo.fit ["SERSIC"] ["STARLETS_GEN2"; "SERSIC"] [] [])
           None Demo.w0)
    = Raise (ValueError MSG_LENS_LIGHT)
  ∧ stdout (fst (__init__ (Demo.fit ["STARLETS"] [] ["LENSED_POSITION"]
                             [[0; nan]]%float) None Demo.w0))
    = [WARNING_PSF_ERROR_MAP]
  ∧ stdout (fst (__init__ (Demo.fit ["STARLETS"] [] ["LENSED_POSITION"]
                             [[0; -0]]%float) None Demo.w0))
    = [].
Proof. repeat split; vm_compute; reflexivity. Qed.

(** C3: in source-only mode, and in source-plus-lens-light mode, the
    constructor looks at the mode's model list (the source list, the
    lens-light list): when the list is a single starlet profile it
    returns the instance with the mode's solver, and otherwise it raises
    the mode's [ValueError]. *)
Theorem init_requires_single_starlet s res w m lm :
  mode_selected s m →
  mode_model s m = Some lm →
  (single_starlet (profile_type_list lm) ∧
   __init__ s res w =
     (w, Ok {| super := s; _subgrid_res_source := default 1%Z res;
               sparseSolver := Some (mode_solver m) |}))
  ∨ (¬ single_starlet (profile_type_list lm) ∧
     __init__ s res w = (w, Raise (mode_error m))).
Proof.
  intros [Hps Hll] Hlm. unfold __init__. rewrite Hps, Hll.
  destruct (not_single_starlet (profile_type_list lm)) eqn:E.
  - right. split; [by apply not_single_starlet_true|].
    destruct m; simpl in *; rewrite Hlm; simpl;
      unfold mbind, M_bind, bind, lift; simpl; by rewrite E.
  - left. split; [by apply not_single_starlet_false|].
    destruct m; simpl in *; rewrite Hlm; simpl;
      unfold mbind, M_bind, bind, lift; simpl; by rewrite E.
Qed.

Lemma init_requires_single_starlet_witness :
  (single_starlet ["SERSIC"] ∧
   __init__ (Demo.fit ["SERSIC"] [] [] []) (Some 2%Z) Demo.w0 =
     (Demo.w0, Ok {| super := Demo.fit ["SERSIC"] [] [] [];
                     _subgrid_res_source := 2;
                     sparseSolver := Some SparseSolverSource |}))
  ∨ (¬ single_starlet ["SERSIC"] ∧
     __init__ (Demo.fit ["SERSIC"] [] [] []) (Some 2%Z) Demo.w0 =
       (Demo.w0, Raise (ValueError MSG_SOURCE))).
Proof.
  apply (init_requires_single_starlet (Demo.fit ["SERSIC"] [] [] [])
           (Some 2%Z) Demo.w0 SourceOnly {| profile_type_list := ["SERSIC"] |}).
  - split; reflexivity.
  - reflexivity.
Defined.

(** C8: in point-source mode the constructor returns the instance with
    the point-source solver; it prints the warning when the PSF error map
    has an entry that differs from zero, and prints nothing when all
    entries are zero. *)
Theorem init_point_sources_psf_error_map s res w :
  no_lens_light s = true →
  no_point_sources s = false →
  let inst := {| super := s; _subgrid_res_source := default 1%Z res;
                 sparseSolver := Some SparseSolverSourcePS |} in
  (nonzero_error_map (psf_error_map (PSF s)) ∧
   __init__ s res w =
     (World (heap w) (stdout w ++ [WARNING_PSF_ERROR_MAP]), Ok inst))
  ∨ (zero_error_map (psf_error_map (PSF s)) ∧ __init__ s res w = (w, Ok inst)).
Proof.
  intros Hll Hps inst. unfold __init__. rewrite Hll, Hps. simpl.
  destruct (Np.all_zero (psf_error_map (PSF s))) eqn:E.
  - right. split; [by apply all_zero_true|]. by destruct w.
  - left. split; [by apply all_zero_false|]. done.
Qed.

Lemma init_point_sources_psf_error_map_witness :
  let s := Demo.fit ["STARLETS"] [] ["LENSED_POSITION"]
             [[0; 0]; [0; 0.25]]%float in
  let inst := {| super := s; _subgrid_res_source := 1;
                 sparseSolver := Some SparseSolverSourcePS |} in
  (nonzero_error_map (psf_error_map (PSF s)) ∧
   __init__ s None Demo.w0 =
     (World (heap Demo.w0) (stdout Demo.w0 ++ [WARNING_PSF_ERROR_MAP]), Ok inst))
  ∨ (zero_error_map (psf_error_map (PSF s)) ∧
     __init__ s None Demo.w0 = (Demo.w0, Ok inst)).
Proof.
  apply (init_point_sources_psf_error_map
           (Demo.fit ["STARLETS"] [] ["LENSED_POSITION"]
              [[0; 0]; [0; 0.25]]%float) None Demo.w0).
  - reflexivity.
  - reflexivity.
Defined.

(** ** Likelihood *)

Section Likelihood.
Context `{Collaborators}.

Lemma penalty_finite : is_finite penalty = true.
Proof. reflexivity. Qed.

(** On an instance without a solver the forward model raises an
    [AttributeError] once the noise model and the point-source image
    have been computed. *)
Lemma solve_without_solver_raises self kl ks kll kps kex ksp w w1 w2
    C_D_response model_error init_ps_model :
  sparseSolver self = None →
  _error_response self kl kps ksp w = (w1, Ok (C_D_response, model_error)) →
  point_source self kps kl ksp w1 = (w2, Ok init_ps_model) →
  image_sparse_solve self kl ks kll kps kex ksp w
    = (w2, Raise (AttributeError MSG_NO_SOLVER)).
Proof.
  intros Hnone Herr Hps. unfold image_sparse_solve, _image_sparse_solve.
  rewrite (bind_Ok _ _ _ _ _ Herr), (bind_Ok _ _ _ _ _ Hps), Hnone.
  reflexivity.
Qed.

(** The likelihood raises what the forward model raises. *)
Lemma likelihood_raises self kl ks kll kps ksp w w' e :
  _image_sparse_solve self kl ks kll None None ksp w = (w', Raise e) →
  likelihood_data_given_model self kl ks kll kps ksp w = (w', Raise e).
Proof.
  intros E. unfold likelihood_data_given_model, _likelihood_data_given_model.
  by rewrite (bind_Raise _ _ _ _ _ E).
Qed.

(** C2: when the forward model returns, the likelihood returns too: the
    log-likelihood of the data when that number is finite, and the
    penalty -1e20 when it is not. *)
Theorem likelihood_non_finite_penalty self kl ks kll kps ksp w w'
    im_sim model_error param :
  _image_sparse_solve self kl ks kll None None ksp w
    = (w', Ok (im_sim, model_error, param)) →
  let logL := log_likelihood (Data (super self)) im_sim
                (likelihood_mask (super self)) model_error in
  likelihood_data_given_model self kl ks kll kps ksp w
    = (w', Ok (if is_finite logL then logL else (-1e20)%float)).
Proof.
  intros E logL.
  unfold likelihood_data_given_model, _likelihood_data_given_model.
  rewrite (bind_Ok _ _ _ _ _ E). fold logL.
  by destruct (is_finite logL).
Qed.

(** C5: the point-source keywords do not reach the forward model: two
    calls that differ in them only are the same computation, the one
    with [kwargs_ps = None]. *)
Theorem likelihood_ignores_kwargs_ps self kl ks kll kps1 kps2 ksp w :
  likelihood_data_given_model self kl ks kll kps1 ksp w
    = likelihood_data_given_model self kl ks kll kps2 ksp w
  ∧ likelihood_data_given_model self kl ks kll kps1 ksp w
    = likelihood_data_given_model self kl ks kll None ksp w.
Proof. split; reflexivity. Qed.

End Likelihood.

Lemma likelihood_non_finite_penalty_witness :
  @likelihood_data_given_model Demo.collaborators Demo.source_only
    None (Some [1%positive]) None (Some [3%positive]) None Demo.w1
  = (fst (@_image_sparse_solve Demo.collaborators Demo.source_only
            None (Some [1%positive]) None None None None Demo.w1),
     Ok (-1e20)%float).
Proof.
  apply (@likelihood_non_finite_penalty Demo.collaborators Demo.source_only
           None (Some [1%positive]) None (Some [3%positive]) None Demo.w1 _
           [[1; 2]; [3; 4]]%float [[0; 0]; [0; 0]]%float [4; 3; 2; 1]%float).
  vm_compute. reflexivity.
Defined.

(** With a model error of zero the log-likelihood of the example is
    minus infinity and the penalty is returned; with a model error of
    one it is -30. *)
Example likelihood_example :
  snd (@likelihood_data_given_model Demo.collaborators Demo.source_only
         None (Some [1%positive]) None None None Demo.w1)
    = Ok (-1e20)%float
  ∧ snd (@likelihood_data_given_model Demo.collaborators Demo.source_only
           (Some []) (Some [1%positive]) None None None Demo.w1)
    = Ok (-30)%float.
Proof. split; vm_compute; reflexivity. Qed.

(** The instance built from a lens-light list and a point-source list
    fails in its first solve. *)
Example solve_after_both_present :
  snd ((inst ← __init__ (Demo.fit ["STARLETS"] ["STARLETS"]
                           ["LENSED_POSITION"] [[0%float]]) None;
        @image_sparse_solve Demo.collaborators inst None (Some [1%positive])
          (Some [2%positive]) (Some [3%positive]) None None) Demo.w1)
  = Raise (AttributeError MSG_NO_SOLVER).
Proof. vm_compute. reflexivity. Qed.

(** ** Lens light *)

Section LensLight.
Context `{Collaborators}.

(** C4: [lens_surface_brightness] returns the same image (or raises the
    same exception) for both values of [unconvolved]: the lens light as
    the light model evaluates it on the image grid.  With
    [unconvolved = True] the warning is printed first; with
    [unconvolved = False] nothing is printed. *)
Theorem lens_surface_brightness_unconvolved self kwargs_lens_light k w :
  lens_surface_brightness self kwargs_lens_light false k w
    = (w, lens_light_image self kwargs_lens_light k (heap w))
  ∧ lens_surface_brightness self kwargs_lens_light true k w
    = (World (heap w) (stdout w ++ [WARNING_UNCONVOLVED]),
       lens_light_image self kwargs_lens_light k (heap w)).
Proof.
  unfold lens_surface_brightness, lens_light_image.
  destruct (coordinates_evaluate self) as [ra_grid dec_grid]. simpl.
  unfold mbind, M_bind, result_bind, bind, rbind, lift, read, print, mret,
    M_ret, ret. simpl.
  destruct (attr (LensLightModel (super self)) MSG_NONE_SB) as [llm|e];
    [|done].
  destruct (surface_brightness llm ra_grid dec_grid kwargs_lens_light k
              (heap w)) as [sb|e]; [|done].
  destruct (array2image sb); done.
Qed.

End LensLight.

(** ** Grid geometry of the pixel-basis profiles *)

Section FixedParam.
Context `{Collaborators}.

Lemma update_fixed_param_run self l rest kll w :
  update_fixed_param self (Some (l :: rest)) kll w
  = (World (updated_heap self l kll (heap w)) (stdout w),
     Ok (Some (l :: rest), kll)).
Proof.
  unfold update_fixed_param, updated_heap, first_dict.
  destruct kll as [[|l2 rest2]|]; simpl;
    unfold mbind, M_bind, bind, setitem0, mret, M_ret, ret; simpl;
    unfold write_source, write_lens_light;
    rewrite !alter_alter_eq; reflexivity.
Qed.

Lemma write_source_fields self d k v :
  (k, v) ∈ source_geometry self → write_source self d !! k = Some v.
Proof.
  unfold source_geometry, write_source.
  rewrite !elem_of_cons, elem_of_nil.
  intros [E|[E|[E|[E|[]]]]]; simplify_eq; by simplify_map_eq.
Qed.

Lemma write_lens_light_fields self d k v :
  (k, v) ∈ lens_light_geometry self → write_lens_light self d !! k = Some v.
Proof.
  unfold lens_light_geometry, write_lens_light.
  rewrite !elem_of_cons, elem_of_nil.
  intros [E|[E|[E|[E|[]]]]]; simplify_eq; by simplify_map_eq.
Qed.

Lemma write_source_idem self d :
  write_source self (write_source self d) = write_source self d.
Proof.
  unfold write_source. apply map_eq. intros k.
  rewrite !lookup_insert. repeat case_decide; done.
Qed.

Lemma write_lens_light_idem self d :
  write_lens_light self (write_lens_light self d) = write_lens_light self d.
Proof.
  unfold write_lens_light. apply map_eq. intros k.
  rewrite !lookup_insert. repeat case_decide; done.
Qed.

(** The lens-light assignments hide earlier source assignments to the
    same dictionary. *)
Lemma write_lens_light_source self d :
  write_lens_light self (write_source self (write_lens_light self d))
  = write_lens_light self d.
Proof.
  unfold write_lens_light, write_source. apply map_eq. intros k.
  rewrite !lookup_insert. repeat case_decide; done.
Qed.

Lemma updated_heap_idem self l kll h :
  updated_heap self l kll (updated_heap self l kll h)
  = updated_heap self l kll h.
Proof.
  unfold updated_heap. destruct (first_dict kll) as [l2|].
  - apply map_eq. intros j. rewrite !lookup_alter.
    destruct (decide (l2 = j)) as [->|Hj2], (decide (l = j)) as [->|Hj];
      repeat case_decide; try done;
      destruct (h !! j) as [d|]; simpl; try done; f_equal.
    + apply write_lens_light_source.
    + apply write_lens_light_idem.
    + apply write_source_idem.
  - apply map_eq. intros j.
    destruct (decide (l = j)) as [->|Hj];
      [rewrite !lookup_alter_eq|by rewrite !lookup_alter_ne].
    destruct (h !! j) as [d|]; simpl; [|done].
    f_equal. apply write_source_idem.
Qed.

(** A second call leaves the heap of the first call as it is, also when
    the two keyword lists share their first dictionary. *)
Lemma update_fixed_param_twice self ks kll w w1 r :
  update_fixed_param self ks kll w = (w1, Ok r) →
  r = (ks, kll) ∧ update_fixed_param self ks kll w1 = (w1, Ok r).
Proof.
  destruct ks as [[|l rest]|].
  - unfold update_fixed_param, setitem0, mbind, M_bind, bind, raise.
    simpl. discriminate.
  - rewrite update_fixed_param_run. intros [= <- <-]. split; [done|].
    rewrite update_fixed_param_run. simpl. by rewrite updated_heap_idem.
  - unfold update_fixed_param, setitem0, mbind, M_bind, bind, raise.
    simpl. discriminate.
Qed.

(** C9: for a source list and a lens-light list whose first
    dictionaries are distinct objects of the heap, [update_fixed_param]
    returns the two lists, a second call in the resulting state returns
    them again and leaves that state as it is, and after the call the
    source dictionary holds the source-plane geometry ([n_pixels] the
    number of data pixels times the square of the supersampling factor,
    [scale] the pixel width divided by that factor, centre (0, 0)) and
    the lens-light dictionary, when there is one, the image-plane
    geometry. *)
Theorem update_fixed_param_idempotent self l rest kll w :
  is_Some (heap w !! l) →
  (∀ l2, first_dict kll = Some l2 → l2 ≠ l ∧ is_Some (heap w !! l2)) →
  ∃ w1,
    update_fixed_param self (Some (l :: rest)) kll w
      = (w1, Ok (Some (l :: rest), kll))
    ∧ update_fixed_param self (Some (l :: rest)) kll w1
      = (w1, Ok (Some (l :: rest), kll))
    ∧ has_fields (heap w1) l (source_geometry self)
    ∧ (∀ l2, first_dict kll = Some l2 →
         has_fields (heap w1) l2 (lens_light_geometry self)).
Proof.
  intros [d Hd] Hll.
  exists (World (updated_heap self l kll (heap w)) (stdout w)).
  split; [apply update_fixed_param_run|].
  split.
  { rewrite update_fixed_param_run. simpl. by rewrite updated_heap_idem. }
  simpl. unfold updated_heap.
  destruct (first_dict kll) as [l2|] eqn:E.
  - destruct (Hll l2 eq_refl) as [Hne [d2 Hd2]]. split.
    + exists (write_source self d). split.
      * by rewrite lookup_alter_ne, lookup_alter_eq, Hd.
      * intros k v. apply write_source_fields.
    + intros ? [= <-]. exists (write_lens_light self d2). split.
      * by rewrite lookup_alter_eq, lookup_alter_ne, Hd2.
      * intros k v. apply write_lens_light_fields.
  - split; [|done].
    exists (write_source self d). split.
    + by rewrite lookup_alter_eq, Hd.
    + intros k v. apply write_source_fields.
Qed.

End FixedParam.

Lemma update_fixed_param_idempotent_witness :
  ∃ w1,
    @update_fixed_param Demo.collaborators Demo.with_lens_light
      (Some [1%positive]) (Some [2%positive]) Demo.w1
      = (w1, Ok (Some [1%positive], Some [2%positive]))
    ∧ @update_fixed_param Demo.collaborators Demo.with_lens_light
        (Some [1%positive]) (Some [2%positive]) w1
      = (w1, Ok (Some [1%positive], Some [2%positive]))
    ∧ has_fields (heap w1) 1%positive
        (@source_geometry Demo.collaborators Demo.with_lens_light)
    ∧ (∀ l2, first_dict (Some [2%positive]) = Some l2 →
         has_fields (heap w1) l2
           (lens_light_geometry Demo.with_lens_light)).
Proof.
  apply (@update_fixed_param_idempotent Demo.collaborators
           Demo.with_lens_light 1%positive [] (Some [2%positive]) Demo.w1).
  - vm_compute. eauto.
  - intros l2 [= <-]. split; [discriminate|]. vm_compute. eauto.
Defined.

(** The geometry written for the example: sixteen source pixels of width
    0.25, four lens-light pixels of width 0.5. *)
Example update_fixed_param_example :
  let w1 := fst (@update_fixed_param Demo.collaborators Demo.with_lens_light
                   (Some [1%positive]) (Some [2%positive]) Demo.w1) in
  (heap w1 !! 1%positive ≫= (.!! "n_pixels"),
   heap w1 !! 1%positive ≫= (.!! "scale"),
   heap w1 !! 2%positive ≫= (.!! "n_pixels"),
   heap w1 !! 2%positive ≫= (.!! "scale"),
   heap w1 !! 1%positive ≫= (.!! "amp"))
  = (Some (VInt 16), Some (VFloat 0.25), Some (VInt 4), Some (VFloat 0.5),
     Some (VArray [1; 2; 3; 4]%float)).
Proof. vm_compute. reflexivity. Qed.

(** When the two lists share their first dictionary the lens-light
    assignments come last, and the dictionary ends with the image-plane
    geometry. *)
Example update_fixed_param_shared_dictionary :
  let w1 := fst (@update_fixed_param Demo.collaborators Demo.with_lens_light
                   (Some [1%positive]) (Some [1%positive]) Demo.w1) in
  heap w1 !! 1%positive ≫= (.!! "n_pixels") = Some (VInt 4).
Proof. vm_compute. reflexivity. Qed.

(** ** Point sources: response matrix and linear solve *)

Section PointSources.
Context `{Collaborators}.

Lemma set_row_fits (A : Np.matrix) i (v row : Np.array) :
  A !! i = Some row → length v = length row →
  Np.set_row A i v = Ok (<[i := v]> A).
Proof.
  intros HA Hlen. unfold Np.set_row, Np.broadcast_to. rewrite HA.
  by rewrite bool_decide_eq_true_2.
Qed.

(** The loop over the rows [k, k + m): it fills these rows and leaves
    the other ones. *)
Lemma response_rows_seq self ra_pos dec_pos amp nr m : ∀ k (A : Np.matrix),
  k + m ≤ length A →
  (∀ i row, A !! i = Some row → length row = nr) →
  (∀ i, k ≤ i < k + m →
     ∃ raw, rendered_row self ra_pos dec_pos amp i = Some raw
            ∧ length raw = nr) →
  ∃ A' : Np.matrix,
    response_rows self ra_pos dec_pos amp (seq k m) A = Ok A'
    ∧ length A' = length A
    ∧ (∀ i, k ≤ i < k + m →
         A' !! i = rendered_row self ra_pos dec_pos amp i)
    ∧ (∀ i, i < k → A' !! i = A !! i).
Proof.
  induction m as [|m IH]; intros k A Hlen Hrows Hraw.
  - exists A. simpl. split; [done|]. split; [done|].
    split; [intros i ?; lia|done].
  - destruct (Hraw k ltac:(lia)) as (raw & Hk & Hrawlen).
    unfold rendered_row in Hk.
    destruct (ra_pos !! k) as [ra|] eqn:Era; [|done].
    destruct (dec_pos !! k) as [dec|] eqn:Edec; [|done].
    destruct (amp !! k) as [a|] eqn:Ea; [|done].
    simpl in Hk. injection Hk as Hk.
    destruct (lookup_lt_is_Some_2 A k ltac:(lia)) as [row Hrow].
    destruct (IH (S k) (<[k := raw]> A)) as (A' & Hrun & HlenA' & Hin & Hout).
    + rewrite length_insert. lia.
    + intros i r Hi. destruct (decide (k = i)) as [->|Hne].
      * rewrite list_lookup_insert_eq in Hi by lia. by simplify_eq.
      * rewrite list_lookup_insert_ne in Hi by done. eauto.
    + intros i Hi. apply Hraw. lia.
    + exists A'. split; [|split; [|split]].
      * simpl. unfold getitem. rewrite Era, Edec, Ea. simpl.
        unfold mbind, result_bind, rbind. rewrite Hk.
        rewrite (set_row_fits A k raw row Hrow)
          by (rewrite Hrawlen; symmetry; eauto).
        exact Hrun.
      * by rewrite HlenA', length_insert.
      * intros i Hi. destruct (decide (i = k)) as [->|Hne].
        -- rewrite (Hout k) by lia.
           rewrite list_lookup_insert_eq by lia.
           unfold rendered_row. rewrite Era, Edec, Ea. simpl. by rewrite Hk.
        -- apply Hin. lia.
      * intros i Hi. rewrite (Hout i) by lia.
        apply list_lookup_insert_ne. lia.
Qed.

Lemma nan_to_num_not_nan (A : Np.matrix) row x :
  row ∈ Np.nan_to_num A → x ∈ row → is_nan x = false.
Proof.
  unfold Np.nan_to_num. intros Hrow Hx.
  apply list_elem_of_fmap in Hrow as (raw & -> & _).
  apply list_elem_of_fmap in Hx as (y & -> & _).
  apply nan_to_num1_not_nan.
Qed.

(** Whenever the response matrix is returned, none of its entries is a
    NaN. *)
Lemma response_matrix_never_nan self kl kps ksp w w' (A : Np.matrix) row x :
  point_source_linear_response_matrix self kl kps ksp w = (w', Ok A) →
  row ∈ A → x ∈ row → is_nan x = false.
Proof.
  unfold point_source_linear_response_matrix, mbind, M_bind, bind.
  destruct (point_source_linear_response_set self kps kl ksp w)
    as [w1 [[[[ra dec] amp] n]|e]]; [|discriminate].
  unfold lift.
  destruct (response_rows self ra dec amp (seq 0 n) _) as [A0|e];
    [|discriminate].
  intros [= <- <-]. apply nan_to_num_not_nan.
Qed.

Lemma zeros2_length n m : length (Np.zeros2 n m) = n.
Proof. apply length_replicate. Qed.

Lemma zeros2_rows n m i (row : Np.array) :
  Np.zeros2 n m !! i = Some row → length row = m.
Proof.
  unfold Np.zeros2. intros Hrow.
  apply lookup_replicate in Hrow as [-> _]. apply length_replicate.
Qed.

(** C7: when the point-source positions are there for each of the
    linear parameters and each rendered image has one entry per data
    pixel, [point_source_linear_response_matrix] returns a matrix with
    one row per parameter; row [i] is the masked rendered image with
    [nan_to_num] applied to each entry, no entry of the matrix is a NaN,
    and an entry that was rendered as NaN is zero. *)
Theorem response_matrix_no_nan self kl kps ksp w w' ra_pos dec_pos amp n :
  point_source_linear_response_set self kps kl ksp w
    = (w', Ok (ra_pos, dec_pos, amp, n)) →
  (∀ i, i < n →
     ∃ raw, rendered_row self ra_pos dec_pos amp i = Some raw
            ∧ length raw = num_data_evaluate (super self)) →
  ∃ A : Np.matrix,
    point_source_linear_response_matrix self kl kps ksp w = (w', Ok A)
    ∧ length A = n
    ∧ (∀ i, i < n →
         A !! i = map Np.nan_to_num1
                    <$> rendered_row self ra_pos dec_pos amp i)
    ∧ (∀ row x, row ∈ A → x ∈ row → is_nan x = false)
    ∧ (∀ i j raw x, i < n →
         rendered_row self ra_pos dec_pos amp i = Some raw →
         raw !! j = Some x → is_nan x = true →
         A !! i ≫= (.!! j) = Some 0%float).
Proof.
  intros Hset Hraw.
  destruct (response_rows_seq self ra_pos dec_pos amp
              (num_data_evaluate (super self)) n 0
              (Np.zeros2 n (num_data_evaluate (super self))))
    as (A0 & Hrun & Hlen & Hin & _).
  { rewrite zeros2_length. lia. }
  { apply zeros2_rows. }
  { intros i Hi. apply Hraw. lia. }
  assert (Hrows : ∀ i, i < n →
            Np.nan_to_num A0 !! i
            = map Np.nan_to_num1 <$> rendered_row self ra_pos dec_pos amp i).
  { intros i Hi. unfold Np.nan_to_num.
    rewrite list_lookup_fmap, Hin by lia. done. }
  exists (Np.nan_to_num A0). split; [|split; [|split; [|split]]].
  - unfold point_source_linear_response_matrix.
    rewrite (bind_Ok _ _ _ _ _ Hset). simpl.
    unfold mbind, M_bind, bind, lift. by rewrite Hrun.
  - unfold Np.nan_to_num. by rewrite length_map, Hlen, zeros2_length.
  - exact Hrows.
  - apply nan_to_num_not_nan.
  - intros i j raw x Hi Hrow Hx Hnan.
    rewrite (Hrows i Hi), Hrow. simpl.
    rewrite list_lookup_fmap, Hx. simpl.
    by rewrite nan_to_num1_nan.
Qed.

(** C6: the point-source solve hands to [get_param_WLS] the transposed
    response matrix, the weights [1 / C_D_response] and the masked data
    minus the masked sparse model; it returns the parameters, the
    covariance and the model of that solve, and the state it ends in is
    the one in which [PointSource.update_linear] has written these
    parameters, from index 0 on, into the point-source keywords. *)
Theorem linear_solve_point_sources_residual self sparse_model kl kps ksp
    inv_bool w w1 w2 w3 (A : Np.matrix) C_D_response model_error
    param cov_param wls_model ps kps' i' :
  point_source_linear_response_matrix self kl kps ksp w = (w1, Ok A) →
  _error_response self kl kps ksp w1 = (w2, Ok (C_D_response, model_error)) →
  length (data_response (super self))
    = length (image2array_masked self sparse_model) →
  get_param_WLS (Np.transpose (num_data_evaluate (super self)) A)
    (map (fun c => (1 / c)%float) C_D_response)
    (zip_with PrimFloat.sub (data_response (super self))
       (image2array_masked self sparse_model))
    inv_bool
    = Ok (param, cov_param, wls_model) →
  PointSource (super self) = Some ps →
  update_linear ps param 0 kps kl w2 = (w3, Ok (kps', i')) →
  _image_linear_solve_point_sources self sparse_model kl kps ksp inv_bool w
    = (w3, Ok (array_masked2image self wls_model, model_error, cov_param,
               param)).
Proof.
  intros HA Herr Hlen Hwls Hps Hupd.
  unfold _image_linear_solve_point_sources.
  rewrite (bind_Ok _ _ _ _ _ HA), (bind_Ok _ _ _ _ _ Herr).
  unfold Np.sub. rewrite bool_decide_eq_true_2 by done.
  unfold Np.reciprocal, update_linear_kwargs_point_source.
  unfold mbind, M_bind, bind, lift. rewrite Hwls, Hps. simpl.
  by rewrite Hupd.
Qed.

End PointSources.

Lemma response_matrix_no_nan_witness :
  ∃ A : Np.matrix,
    @point_source_linear_response_matrix Demo.collaborators
      Demo.with_point_source None (Some [3%positive]) None Demo.w1
      = (Demo.w1, Ok A)
    ∧ length A = 1%nat
    ∧ (∀ i, i < 1 →
         A !! i = map Np.nan_to_num1
                    <$> @rendered_row Demo.collaborators Demo.with_point_source
                          [[0.5]]%float [[0.5]]%float [[1]]%float i)
    ∧ (∀ row x, row ∈ A → x ∈ row → is_nan x = false)
    ∧ (∀ i j raw x, i < 1 →
         @rendered_row Demo.collaborators Demo.with_point_source
           [[0.5]]%float [[0.5]]%float [[1]]%float i = Some raw →
         raw !! j = Some x → is_nan x = true →
         A !! i ≫= (.!! j) = Some 0%float).
Proof.
  apply (@response_matrix_no_nan Demo.collaborators Demo.with_point_source
           None (Some [3%positive]) None Demo.w1 Demo.w1
           [[0.5]]%float [[0.5]]%float [[1]]%float 1%nat).
  - reflexivity.
  - intros i Hi. assert (i = 0%nat) as -> by lia.
    eexists. split; reflexivity.
Defined.

(** The response of the example: the pixel that is rendered as NaN has
    response zero. *)
Example response_matrix_example :
  snd (@point_source_linear_response_matrix Demo.collaborators
         Demo.with_point_source None (Some [3%positive]) None Demo.w1)
  = Ok [[0; 1; 0.5; 0]]%float.
Proof. vm_compute. reflexivity. Qed.

Lemma linear_solve_point_sources_residual_witness :
  ∃ w3,
    @_image_linear_solve_point_sources Demo.collaborators
      Demo.with_point_source [[0; 0]; [2; 0]]%float None (Some [3%positive])
      None false Demo.w1
    = (w3, Ok ([[0; 2]; [1; 0]]%float, [[0; 0]; [0; 0]]%float, [],
               [2]%float))
    ∧ heap w3 !! 3%positive ≫= (.!! "point_amp") = Some (VArray [2]%float).
Proof.
  eexists. split.
  - eapply (@linear_solve_point_sources_residual Demo.collaborators
              Demo.with_point_source [[0; 0]; [2; 0]]%float None
              (Some [3%positive]) None false Demo.w1 Demo.w1 Demo.w1 _
              [[0; 1; 0.5; 0]]%float [1; 1; 1; 4]%float [[0; 0]; [0; 0]]%float
              [2]%float [] [0; 2; 1; 0]%float
              {| point_source_type_list := ["LENSED_POSITION"] |}
              (Some [3%positive]) 1%nat).
    + vm_compute. reflexivity.
    + vm_compute. reflexivity.
    + reflexivity.
    + vm_compute. reflexivity.
    + reflexivity.
    + vm_compute. reflexivity.
  - vm_compute. reflexivity.
Defined.

(** ** The Hessian of the multi-Gaussian profile *)

Section Hessian.
Import MultiGaussianEllipseKappa.
Context `{GaussianEllipseKappa}.

Lemma iadd_same_shape (a b : Np.array) :
  length b = length a →
  Np.iadd a b = Ok (zip_with PrimFloat.add a b).
Proof.
  intros Hlen. unfold Np.iadd, Np.broadcast_to.
  by rewrite bool_decide_eq_true_2.
Qed.

Lemma length_zip_add (a b : Np.array) :
  length b = length a → length (zip_with PrimFloat.add a b) = length a.
Proof. intros Hlen. rewrite length_zip_with. lia. Qed.

(** The loop over the components [k, k + m) returns when the widths
    are there for each amplitude. *)
Lemma hessian_loop_returns x y amp sigma e1 e2 cx cy m :
  hessian_shaped x y e1 e2 cx cy →
  ∀ k (f_xx f_yy f_xy : Np.array),
    k + m ≤ length amp → k + m ≤ length sigma →
    length f_xx = length x → length f_yy = length x →
    length f_xy = length x →
    ∃ r, hessian_loop x y amp sigma e1 e2 cx cy (seq k m) f_xx f_yy f_xy
         = Ok r.
Proof.
  intros Hshape.
  induction m as [|m IH]; intros k f_xx f_yy f_xy Ha Hs Hxx Hyy Hxy.
  - by eexists.
  - destruct (lookup_lt_is_Some_2 amp k ltac:(lia)) as [amp_k Eamp].
    destruct (lookup_lt_is_Some_2 sigma k ltac:(lia)) as [sigma_k Esig].
    simpl. unfold getitem. rewrite Eamp, Esig. simpl.
    specialize (Hshape amp_k sigma_k).
    destruct (gaussian_ellipse_kappa_hessian x y amp_k sigma_k e1 e2 cx cy)
      as [[[f_xx_i f_xy_i] f_yx_i] f_yy_i].
    destruct Hshape as (Lxx & Lxy & Lyy).
    rewrite !iadd_same_shape by congruence. simpl.
    apply IH; try lia; rewrite length_zip_add; congruence.
Qed.

(** Whenever [hessian] returns, its second and third components are
    one array. *)
Lemma hessian_mixed_equal x y amp sigma e1 e2 cx cy f_xx f_xy f_yx f_yy :
  hessian x y amp sigma e1 e2 cx cy = Ok (f_xx, f_xy, f_yx, f_yy) →
  f_xy = f_yx.
Proof.
  unfold hessian.
  destruct (hessian_loop _ _ _ _ _ _ _ _ _ _ _ _) as [[[a b] c]|e];
    simpl; [|discriminate].
  by intros [= _ <- <- _].
Qed.

(** C10: with a width for each amplitude, and single-Gaussian Hessians
    of the shape of [x], [hessian] returns four components of which the
    second and the third, the mixed derivatives, are the same array. *)
Theorem hessian_symmetric x y amp sigma e1 e2 cx cy :
  length amp ≤ length sigma →
  hessian_shaped x y e1 e2 cx cy →
  ∃ f_xx f_xy f_yy,
    hessian x y amp sigma e1 e2 cx cy = Ok (f_xx, f_xy, f_xy, f_yy).
Proof.
  intros Hlen Hshape.
  destruct (hessian_loop_returns x y amp sigma e1 e2 cx cy (length amp)
              Hshape 0 (Np.zeros_like x) (Np.zeros_like x)
              (Np.zeros_like x)) as [[[f_xx f_yy] f_xy] Hrun];
    try (unfold Np.zeros_like; apply length_map); try lia.
  exists f_xx, f_xy, f_yy. unfold hessian. by rewrite Hrun.
Qed.

End Hessian.

Lemma hessian_symmetric_witness :
  ∃ f_xx f_xy f_yy,
    @MultiGaussianEllipseKappa.hessian Demo.gaussian
      [1; 2; 3]%float [0; 1; 0]%float [2; 4]%float [1; 2; nan]%float
      0.5%float 0%float 0%float 0%float
    = Ok (f_xx, f_xy, f_xy, f_yy).
Proof.
  apply (@hessian_symmetric Demo.gaussian).
  - simpl. lia.
  - intros a s. simpl. repeat split; reflexivity.
Defined.

Example hessian_example :
  @MultiGaussianEllipseKappa.hessian Demo.gaussian
    [1; 2; 3]%float [0; 1; 0]%float [2; 4]%float [1; 2; nan]%float
    0.5%float 0%float 0%float 0%float
  = Ok ([8; 8; 8], [4; 4; 4], [4; 4; 4], [8; 8; 8])%float.
Proof. vm_compute. reflexivity. Qed.

(** * Further properties *)

(** ** Construction *)

(** The source model list is looked at in source-only mode only: with
    lens light or point sources present, the constructor prints the same,
    and returns the same solver or raises the same exception, whatever
    the source model is. *)
Theorem init_source_checked_in_source_only_mode s sm res w :
  no_lens_light s && no_point_sources s = false →
  fst (__init__ (with_source s sm) res w) = fst (__init__ s res w)
  ∧ result_map sparseSolver (snd (__init__ (with_source s sm) res w))
    = result_map sparseSolver (snd (__init__ s res w)).
Proof.
  intros Hmode. unfold __init__.
  change (no_lens_light (with_source s sm)) with (no_lens_light s).
  change (no_point_sources (with_source s sm)) with (no_point_sources s).
  rewrite Hmode. simpl.
  destruct (no_point_sources s).
  - unfold mbind, M_bind, bind, lift. simpl.
    destruct (attr (LensLightModel s) MSG_NONE_ATTR) as [lm|e]; [|done].
    destruct (not_single_starlet (profile_type_list lm)); done.
  - destruct (no_lens_light s); [|done].
    unfold mbind, M_bind, bind. simpl.
    destruct (negb (Np.all_zero (psf_error_map (PSF s)))); done.
Qed.

Lemma init_source_checked_in_source_only_mode_witness :
  let s := Demo.fit ["STARLETS"] [] ["LENSED_POSITION"] [] in
  let sm := Some {| profile_type_list := ["SERSIC"; "SERSIC"] |} in
  fst (__init__ (with_source s sm) None Demo.w0) = fst (__init__ s None Demo.w0)
  ∧ result_map sparseSolver (snd (__init__ (with_source s sm) None Demo.w0))
    = result_map sparseSolver (snd (__init__ s None Demo.w0)).
Proof.
  apply (init_source_checked_in_source_only_mode
           (Demo.fit ["STARLETS"] [] ["LENSED_POSITION"] [])).
  reflexivity.
Defined.

(** A source list of two analytic profiles is accepted next to a point
    source. *)
Example init_unchecked_source_example :
  result_map sparseSolver
    (snd (__init__ (Demo.fit ["SERSIC"; "SERSIC"] [] ["LENSED_POSITION"] [])
            None Demo.w0))
  = Ok (Some SparseSolverSourcePS).
Proof. vm_compute. reflexivity. Qed.

(** ** Forward model and likelihood *)

Section ForwardModel.
Context `{Collaborators}.

(** Every value the likelihood returns is a finite number. *)
Theorem likelihood_always_finite self kl ks kll kps ksp w w' v :
  likelihood_data_given_model self kl ks kll kps ksp w = (w', Ok v) →
  is_finite v = true.
Proof.
  unfold likelihood_data_given_model, _likelihood_data_given_model.
  unfold mbind, M_bind, bind.
  destruct (_image_sparse_solve self kl ks kll None None ksp w)
    as [w1 [[[im_sim model_error] param]|e]]; [|discriminate].
  destruct (is_finite (log_likelihood _ _ _ _)) eqn:E; simpl.
  - by intros [= _ <-].
  - by intros [= _ <-].
Qed.

Lemma update_fixed_param_no_source self ks kll w :
  ks = None ∨ ks = Some [] →
  update_fixed_param self ks kll w
  = (w, Raise (if ks is None then TypeError else IndexError)).
Proof. intros [-> | ->]; reflexivity. Qed.

(** Without a source dictionary ([kwargs_source] is [None], its default,
    or the empty list) the forward model raises, a [TypeError] or an
    [IndexError]; it does so after the sparse solver has run, and the
    state it leaves is the solver's: no keyword dictionary is updated. *)
Theorem sparse_solve_without_source self kl ks kll kps kex ksp w w1 w2 w3
    C_D_response model_error init_ps_model solver model param :
  ks = None ∨ ks = Some [] →
  _error_response self kl kps ksp w = (w1, Ok (C_D_response, model_error)) →
  point_source self kps kl ksp w1 = (w2, Ok init_ps_model) →
  sparseSolver self = Some solver →
  solve solver kl ks kll kps ksp init_ps_model w2 = (w3, Ok (model, param)) →
  image_sparse_solve self kl ks kll kps kex ksp w
  = (w3, Raise (if ks is None then TypeError else IndexError)).
Proof.
  intros Hks Herr Hps Hsolver Hsolve.
  unfold image_sparse_solve, _image_sparse_solve.
  rewrite (bind_Ok _ _ _ _ _ Herr), (bind_Ok _ _ _ _ _ Hps), Hsolver.
  unfold lift, attr. unfold mbind at 1, M_bind at 1, bind at 1.
  rewrite (bind_Ok _ _ _ _ _ Hsolve).
  unfold update_sparse_kwargs.
  unfold mbind at 1, M_bind at 1, bind at 1.
  unfold mbind at 1, M_bind at 1, bind at 1.
  by rewrite (update_fixed_param_no_source self ks kll w3 Hks).
Qed.

(** [update_fixed_param] prints nothing, creates and removes no
    dictionary, leaves every dictionary other than the first one of each
    list as it is, and in every dictionary leaves the entries under other
    keys than the four geometry keys as they are. *)
Theorem update_fixed_param_frame self ks kll w w1 r :
  update_fixed_param self ks kll w = (w1, Ok r) →
  stdout w1 = stdout w
  ∧ dom (heap w1) = dom (heap w)
  ∧ (∀ j, first_dict ks ≠ Some j → first_dict kll ≠ Some j →
       heap w1 !! j = heap w !! j)
  ∧ (∀ j key, key ∉ GEOMETRY_KEYS →
       heap w1 !! j ≫= (.!! key) = heap w !! j ≫= (.!! key)).
Proof.
  destruct ks as [[|l rest]|];
    [by rewrite update_fixed_param_no_source by auto| |
     by rewrite update_fixed_param_no_source by auto].
  rewrite update_fixed_param_run. intros [= <- _]. simpl.
  assert (Hsrc : ∀ d key, key ∉ GEOMETRY_KEYS →
            write_source self d !! key = d !! key).
  { intros d key Hkey. unfold GEOMETRY_KEYS in Hkey.
    rewrite !not_elem_of_cons in Hkey.
    destruct Hkey as (K1 & K2 & K3 & K4 & _). unfold write_source.
    rewrite !lookup_insert_ne by congruence. done. }
  assert (Hll : ∀ d key, key ∉ GEOMETRY_KEYS →
            write_lens_light self d !! key = d !! key).
  { intros d key Hkey. unfold GEOMETRY_KEYS in Hkey.
    rewrite !not_elem_of_cons in Hkey.
    destruct Hkey as (K1 & K2 & K3 & K4 & _). unfold write_lens_light.
    rewrite !lookup_insert_ne by congruence. done. }
  unfold updated_heap. split; [done|].
  destruct (first_dict kll) as [l2|]; (split; [|split]).
  - by rewrite !dom_alter_L.
  - intros j Hj Hj2. simpl in Hj. rewrite !lookup_alter_ne by congruence. done.
  - intros j key Hkey. rewrite !lookup_alter.
    repeat case_decide; subst; destruct (heap w !! j) as [d|]; simpl;
      rewrite ?Hll, ?Hsrc by done; done.
  - by rewrite dom_alter_L.
  - intros j Hj _. simpl in Hj. rewrite lookup_alter_ne by congruence. done.
  - intros j key Hkey. rewrite lookup_alter.
    case_decide; subst; destruct (heap w !! j) as [d|]; simpl;
      rewrite ?Hsrc by done; done.
Qed.

End ForwardModel.

Lemma likelihood_always_finite_witness : is_finite (-30)%float = true.
Proof.
  apply (@likelihood_always_finite Demo.collaborators Demo.source_only
           (Some []) (Some [1%positive]) None None None Demo.w1
           (fst (@likelihood_data_given_model Demo.collaborators
                   Demo.source_only (Some []) (Some [1%positive]) None None
                   None Demo.w1))).
  vm_compute. reflexivity.
Defined.

Lemma sparse_solve_without_source_witness :
  @image_sparse_solve Demo.collaborators Demo.source_only
    None None None None None None Demo.w1
  = (Demo.w1, Raise TypeError).
Proof.
  apply (@sparse_solve_without_source Demo.collaborators Demo.source_only
           None None None None None None Demo.w1 Demo.w1 Demo.w1 Demo.w1
           [1; 1; 1; 4]%float [[0; 0]; [0; 0]]%float [[0; 0]; [0; 0]]%float
           SparseSolverSource [[1; 2]; [3; 4]]%float [4; 3; 2; 1]%float).
  - left. reflexivity.
  - reflexivity.
  - reflexivity.
  - reflexivity.
  - reflexivity.
Defined.

Lemma update_fixed_param_frame_witness :
  let w1 := fst (@update_fixed_param Demo.collaborators Demo.with_lens_light
                   (Some [1%positive]) (Some [2%positive]) Demo.w1) in
  stdout w1 = stdout Demo.w1
  ∧ dom (heap w1) = dom (heap Demo.w1)
  ∧ (∀ j, first_dict (Some [1%positive]) ≠ Some j →
          first_dict (Some [2%positive]) ≠ Some j →
       heap w1 !! j = heap Demo.w1 !! j)
  ∧ (∀ j key, key ∉ GEOMETRY_KEYS →
       heap w1 !! j ≫= (.!! key) = heap Demo.w1 !! j ≫= (.!! key)).
Proof.
  apply (@update_fixed_param_frame Demo.collaborators Demo.with_lens_light
           (Some [1%positive]) (Some [2%positive]) Demo.w1 _
           (Some [1%positive], Some [2%positive])).
  vm_compute. reflexivity.
Defined.

(** ** Point-source response *)

Lemma nan_to_num1_finite x : is_finite (Np.nan_to_num1 x) = true.
Proof.
  unfold Np.nan_to_num1.
  destruct (is_nan x) eqn:Hn; [reflexivity|].
  destruct (x =? infinity)%float eqn:Hp; [reflexivity|].
  destruct (x =? neg_infinity)%float eqn:Hm; [reflexivity|].
  unfold is_finite, is_infinity. rewrite Hn. simpl.
  rewrite FloatAxioms.eqb_spec in Hp, Hm |- *.
  rewrite FloatAxioms.abs_spec.
  change (FloatOps.Prim2SF infinity) with (SpecFloat.S754_infinity false) in *.
  change (FloatOps.Prim2SF neg_infinity)
    with (SpecFloat.S754_infinity true) in *.
  destruct (FloatOps.Prim2SF x) as [s|s| |s m e]; simpl in *; try reflexivity.
  destruct s; vm_compute in Hp, Hm; congruence.
Qed.

Lemma broadcast_to_length n (v v' : Np.array) :
  Np.broadcast_to n v = Ok v' → length v' = n.
Proof.
  unfold Np.broadcast_to. case_bool_decide as Hlen.
  - by intros [= <-].
  - destruct v as [|x [|y v]]; try discriminate.
    intros [= <-]. apply length_replicate.
Qed.

Lemma set_row_shape nr (A A' : Np.matrix) i v :
  Np.set_row A i v = Ok A' →
  (∀ row, row ∈ A → length row = nr) →
  length A' = length A ∧ (∀ row, row ∈ A' → length row = nr).
Proof.
  unfold Np.set_row. destruct (A !! i) as [row|] eqn:Hrow; [|discriminate].
  destruct (Np.broadcast_to (length row) v) as [v'|e] eqn:Hb; [|discriminate].
  intros [= <-] Hrows. split; [apply length_insert|].
  intros r Hr. apply list_elem_of_lookup in Hr as [j Hj].
  destruct (decide (i = j)) as [->|Hne].
  - rewrite list_lookup_insert_eq in Hj by (by eapply lookup_lt_Some).
    injection Hj as <-. rewrite (broadcast_to_length _ _ _ Hb).
    apply Hrows. by eapply list_elem_of_lookup_2.
  - rewrite list_lookup_insert_ne in Hj by done.
    apply Hrows. by eapply list_elem_of_lookup_2.
Qed.

Section ResponseShape.
Context `{Collaborators}.

Lemma response_rows_shape self ra_pos dec_pos amp nr idx :
  ∀ (A A' : Np.matrix),
    response_rows self ra_pos dec_pos amp idx A = Ok A' →
    (∀ row, row ∈ A → length row = nr) →
    length A' = length A ∧ (∀ row, row ∈ A' → length row = nr).
Proof.
  induction idx as [|i idx IH]; intros A A' Hrun Hrows.
  - by injection Hrun as <-.
  - simpl in Hrun. unfold mbind, result_bind, rbind in Hrun.
    destruct (getitem ra_pos i) as [ra|e]; [|discriminate].
    destruct (getitem dec_pos i) as [dec|e]; [|discriminate].
    destruct (getitem amp i) as [a|e]; [|discriminate].
    destruct (Np.set_row A i _) as [A1|e] eqn:Hset; [|discriminate].
    destruct (set_row_shape nr A A1 i _ Hset Hrows) as [Hlen1 Hrows1].
    destruct (IH A1 A' Hrun Hrows1) as [Hlen' Hrows'].
    split; [congruence|done].
Qed.

Lemma response_matrix_run self kl kps ksp w w1 ra_pos dec_pos amp n :
  point_source_linear_response_set self kps kl ksp w
    = (w1, Ok (ra_pos, dec_pos, amp, n)) →
  point_source_linear_response_matrix self kl kps ksp w
  = (w1, result_map Np.nan_to_num
           (response_rows self ra_pos dec_pos amp (seq 0 n)
              (Np.zeros2 n (num_data_evaluate (super self))))).
Proof.
  intros Hset. unfold point_source_linear_response_matrix.
  rewrite (bind_Ok _ _ _ _ _ Hset). simpl.
  unfold mbind, M_bind, bind, lift.
  by destruct (response_rows _ _ _ _ _ _).
Qed.

(** Whenever the response matrix is returned, it has one row for each
    linear parameter and one column for each data pixel, and each of its
    entries is a finite number; the state is the one left by
    [point_source_linear_response_set]. *)
Theorem response_matrix_shape_finite self kl kps ksp w w1 w'
    ra_pos dec_pos amp n (A : Np.matrix) :
  point_source_linear_response_set self kps kl ksp w
    = (w1, Ok (ra_pos, dec_pos, amp, n)) →
  point_source_linear_response_matrix self kl kps ksp w = (w', Ok A) →
  w' = w1
  ∧ length A = n
  ∧ (∀ row, row ∈ A → length row = num_data_evaluate (super self))
  ∧ (∀ row x, row ∈ A → x ∈ row → is_finite x = true).
Proof.
  intros Hset. rewrite (response_matrix_run _ _ _ _ _ _ _ _ _ _ Hset).
  destruct (response_rows _ _ _ _ _ _) as [A0|e] eqn:Hrun; [|discriminate].
  intros [= <- <-].
  destruct (response_rows_shape _ _ _ _ (num_data_evaluate (super self))
              _ _ _ Hrun) as [Hlen Hrows].
  { intros row Hrow. apply list_elem_of_lookup in Hrow as [i Hi].
    by eapply zeros2_rows. }
  split; [done|]. split; [|split].
  - unfold Np.nan_to_num. by rewrite length_map, Hlen, zeros2_length.
  - intros row Hrow. unfold Np.nan_to_num in Hrow.
    apply list_elem_of_fmap in Hrow as (raw & -> & Hraw).
    rewrite length_map. by apply Hrows.
  - intros row x Hrow Hx. unfold Np.nan_to_num in Hrow.
    apply list_elem_of_fmap in Hrow as (raw & -> & _).
    apply list_elem_of_fmap in Hx as (y & -> & _).
    apply nan_to_num1_finite.
Qed.

End ResponseShape.

Section ResponseErrors.
Context `{Collaborators}.

Lemma response_rows_app self ra_pos dec_pos amp idx1 idx2 : ∀ A : Np.matrix,
  response_rows self ra_pos dec_pos amp (idx1 ++ idx2) A
  = response_rows self ra_pos dec_pos amp idx1 A
      ≫= response_rows self ra_pos dec_pos amp idx2.
Proof.
  induction idx1 as [|i idx1 IH]; intros A; [done|].
  simpl. unfold mbind, result_bind, rbind.
  destruct (getitem ra_pos i); [|done].
  destruct (getitem dec_pos i); [|done].
  destruct (getitem amp i); [|done].
  destruct (Np.set_row A i _); [|done].
  apply IH.
Qed.

(** When [point_source_linear_response_set] announces more linear
    parameters than it gives positions or amplitudes for, and the rendered
    images have one entry per data pixel, the response matrix is not
    returned: an [IndexError] is raised. *)
Theorem response_matrix_missing_positions self kl kps ksp w w1
    ra_pos dec_pos amp n :
  point_source_linear_response_set self kps kl ksp w
    = (w1, Ok (ra_pos, dec_pos, amp, n)) →
  length ra_pos < n ∨ length dec_pos < n ∨ length amp < n →
  (∀ i raw, rendered_row self ra_pos dec_pos amp i = Some raw →
     length raw = num_data_evaluate (super self)) →
  point_source_linear_response_matrix self kl kps ksp w
  = (w1, Raise IndexError).
Proof.
  intros Hset Hshort Hraw.
  rewrite (response_matrix_run _ _ _ _ _ _ _ _ _ _ Hset).
  set (m := length ra_pos `min` (length dec_pos `min` length amp)).
  assert (Hm : m < n) by lia.
  replace n with (m + S (n - S m)) at 1 by lia.
  rewrite seq_app, response_rows_app. simpl seq.
  destruct (response_rows_seq self ra_pos dec_pos amp
              (num_data_evaluate (super self)) m 0
              (Np.zeros2 n (num_data_evaluate (super self))))
    as (A0 & -> & _).
  { rewrite zeros2_length. lia. }
  { apply zeros2_rows. }
  { intros i Hi.
    destruct (lookup_lt_is_Some_2 ra_pos i ltac:(lia)) as [ra Hra].
    destruct (lookup_lt_is_Some_2 dec_pos i ltac:(lia)) as [dec Hdec].
    destruct (lookup_lt_is_Some_2 amp i ltac:(lia)) as [a Ha].
    eexists. split.
    - unfold rendered_row. rewrite Hra, Hdec, Ha. reflexivity.
    - apply (Hraw i). unfold rendered_row. by rewrite Hra, Hdec, Ha. }
  simpl. unfold mbind, result_bind, rbind, getitem.
  destruct (ra_pos !! m) as [ra|] eqn:Hra; [|done].
  destruct (dec_pos !! m) as [dec|] eqn:Hdec; [|done].
  destruct (amp !! m) as [a|] eqn:Ha; [|done].
  apply lookup_lt_Some in Hra, Hdec, Ha. lia.
Qed.

End ResponseErrors.

Lemma response_matrix_shape_finite_witness :
  Demo.w1 = Demo.w1
  ∧ length [[0; 1; 0.5; 0]]%float = 1%nat
  ∧ (∀ row, row ∈ [[0; 1; 0.5; 0]]%float →
       length row = num_data_evaluate (super Demo.with_point_source))
  ∧ (∀ row x, row ∈ [[0; 1; 0.5; 0]]%float → x ∈ row → is_finite x = true).
Proof.
  apply (@response_matrix_shape_finite Demo.collaborators
           Demo.with_point_source None (Some [3%positive]) None Demo.w1
           Demo.w1 Demo.w1 [[0.5]]%float [[0.5]]%float [[1]]%float 1%nat).
  - reflexivity.
  - vm_compute. reflexivity.
Defined.

Lemma response_matrix_missing_positions_witness :
  @point_source_linear_response_matrix collaborators_two_params
    Demo.with_point_source None (Some [3%positive]) None Demo.w1
  = (Demo.w1, Raise IndexError).
Proof.
  apply (@response_matrix_missing_positions collaborators_two_params
           Demo.with_point_source None (Some [3%positive]) None Demo.w1
           Demo.w1 [[0.5]]%float [[0.5]]%float [[1]]%float 2%nat).
  - reflexivity.
  - left. simpl. lia.
  - intros i raw. destruct i as [|i]; [|discriminate].
    intros [= <-]. reflexivity.
Defined.

(** ** Loops over indices *)

Section LoopOver.
Context {St : Type}.
Implicit Types (step : nat → St → result St) (P : St → Prop).

Lemma loop_over_app step idx1 idx2 : ∀ s,
  loop_over step (idx1 ++ idx2) s
  = loop_over step idx1 s ≫= loop_over step idx2.
Proof.
  induction idx1 as [|i idx1 IH]; intros s; [done|].
  simpl. destruct (step i s) as [s'|e]; [apply IH|done].
Qed.

Lemma loop_over_ext step step' idx : ∀ s,
  (∀ i s, i ∈ idx → step i s = step' i s) →
  loop_over step idx s = loop_over step' idx s.
Proof.
  induction idx as [|i idx IH]; intros s Hext; [done|].
  simpl. rewrite <- (Hext i s) by left.
  destruct (step i s) as [s'|e]; [|done].
  apply IH. intros j t Hj. apply Hext. by right.
Qed.

Lemma loop_over_invariant P step idx : ∀ s s',
  (∀ i s s', P s → step i s = Ok s' → P s') →
  P s → loop_over step idx s = Ok s' → P s'.
Proof.
  induction idx as [|i idx IH]; intros s s' Hstep Hs Hrun.
  - by injection Hrun as <-.
  - simpl in Hrun. destruct (step i s) as [s1|e] eqn:E; [|discriminate].
    apply (IH s1 s' Hstep); [|done]. by apply (Hstep i s s1).
Qed.

Lemma loop_over_returns P step m : ∀ k s,
  (∀ i s, k ≤ i < k + m → P s → ∃ s', step i s = Ok s' ∧ P s') →
  P s → ∃ s', loop_over step (seq k m) s = Ok s' ∧ P s'.
Proof.
  induction m as [|m IH]; intros k s Hstep Hs; [by exists s|].
  destruct (Hstep k s ltac:(lia) Hs) as (s1 & E & Hs1).
  simpl. rewrite E. apply IH; [|done].
  intros i t Hi. apply Hstep. lia.
Qed.

(** A loop whose rounds before [m] go through and whose round [m]
    raises. *)
Lemma loop_over_raises P step m n e s :
  m < n →
  (∀ i s, i < m → P s → ∃ s', step i s = Ok s' ∧ P s') →
  (∀ s, P s → step m s = Raise e) →
  P s → loop_over step (seq 0 n) s = Raise e.
Proof.
  intros Hm Hstep Hraise Hs.
  replace n with (m + S (n - S m)) by lia.
  rewrite seq_app, loop_over_app.
  destruct (loop_over_returns P step m 0 s) as (s1 & -> & Hs1); [|done|].
  { intros i t Hi. apply Hstep. lia. }
  simpl. by rewrite Hraise.
Qed.

(** A loop over the indices of two lists whose rounds are a function of
    the two entries is a fold over the zipped lists. *)
Lemma loop_over_zip {A B} step (g : St → A * B → St) P (la : list A) :
  ∀ (lb : list B) k s,
    (∀ i a b s, la !! i = Some a → lb !! i = Some b → P s →
       step (k + i) s = Ok (g s (a, b)) ∧ P (g s (a, b))) →
    length la ≤ length lb →
    P s →
    loop_over step (seq k (length la)) s = Ok (foldl g s (zip la lb)).
Proof.
  induction la as [|a la IH]; intros lb k s Hstep Hlen Hs; [done|].
  destruct lb as [|b lb]; [simpl in Hlen; lia|].
  destruct (Hstep 0 a b s eq_refl eq_refl Hs) as [E Hs1].
  rewrite Nat.add_0_r in E. simpl. rewrite E.
  apply IH; [|simpl in Hlen; lia|done].
  intros i a' b' t Ha Hb Ht.
  replace (S k + i) with (k + S i) by lia. by apply Hstep.
Qed.

End LoopOver.

Lemma iadd_length (a b r : Np.array) :
  Np.iadd a b = Ok r → length r = length a.
Proof.
  unfold Np.iadd.
  destruct (Np.broadcast_to (length a) b) as [b'|e] eqn:Hb; [|discriminate].
  intros [= <-]. rewrite length_zip_with.
  rewrite (broadcast_to_length _ _ _ Hb). lia.
Qed.

Lemma zeros_like_length (x : Np.array) : length (Np.zeros_like x) = length x.
Proof. apply length_map. Qed.

(** ** The multi-Gaussian profile *)

Section MultiGaussian.
Import MultiGaussianEllipseKappa MultiGaussianEllipseKappaProfile.
Context `{GaussianEllipseKappa} `{GaussianEllipseKappaProfile}.
Context (x y : Np.array) (e1 e2 center_x center_y : float).

(** The four loops of the source are loops over their rounds. *)
Lemma hessian_loop_over amp sigma idx : ∀ f_xx f_yy f_xy,
  hessian_loop x y amp sigma e1 e2 center_x center_y idx f_xx f_yy f_xy
  = loop_over (hessian_step x y amp sigma e1 e2 center_x center_y) idx
      (f_xx, f_yy, f_xy).
Proof.
  induction idx as [|i idx IH]; intros f_xx f_yy f_xy; [done|].
  simpl. unfold mbind, result_bind, rbind.
  destruct (getitem amp i) as [amp_i|e]; [|done].
  destruct (getitem sigma i) as [sigma_i|e]; [|done].
  destruct (gaussian_ellipse_kappa_hessian _ _ _ _ _ _ _ _)
    as [[[f_xx_i f_xy_i] f_yx_i] f_yy_i].
  destruct (Np.iadd f_xx f_xx_i); [|done].
  destruct (Np.iadd f_yy f_yy_i); [|done].
  destruct (Np.iadd f_xy f_xy_i); [|done].
  apply IH.
Qed.

Lemma function_loop_over amp sigma idx : ∀ acc,
  function_loop x y amp sigma e1 e2 center_x center_y idx acc
  = loop_over (function_step x y amp sigma e1 e2 center_x center_y) idx acc.
Proof.
  induction idx as [|i idx IH]; intros acc; [done|].
  simpl. unfold function_step, mbind, result_bind, rbind.
  destruct (getitem amp i) as [amp_i|e]; [|done].
  destruct (getitem sigma i) as [sigma_i|e]; [|done].
  destruct (Np.iadd acc _); [|done].
  apply IH.
Qed.

Lemma derivatives_loop_over amp sigma idx : ∀ f_x f_y,
  derivatives_loop x y amp sigma e1 e2 center_x center_y idx f_x f_y
  = loop_over (derivatives_step x y amp sigma e1 e2 center_x center_y) idx
      (f_x, f_y).
Proof.
  induction idx as [|i idx IH]; intros f_x f_y; [done|].
  simpl. unfold mbind, result_bind, rbind.
  destruct (getitem amp i) as [amp_i|e]; [|done].
  destruct (getitem sigma i) as [sigma_i|e]; [|done].
  destruct (gaussian_ellipse_kappa_derivatives _ _ _ _ _ _ _ _)
    as [f_x_i f_y_i].
  destruct (Np.iadd f_x f_x_i); [|done].
  destruct (Np.iadd f_y f_y_i); [|done].
  apply IH.
Qed.

Lemma density_2d_loop_over amp sigma idx : ∀ acc,
  density_2d_loop x y amp sigma e1 e2 center_x center_y idx acc
  = loop_over (density_2d_step x y amp sigma e1 e2 center_x center_y) idx acc.
Proof.
  induction idx as [|i idx IH]; intros acc; [done|].
  simpl. unfold density_2d_step, mbind, result_bind, rbind.
  destruct (getitem amp i) as [amp_i|e]; [|done].
  destruct (getitem sigma i) as [sigma_i|e]; [|done].
  destruct (Np.iadd acc _); [|done].
  apply IH.
Qed.

(** Rounds keep the shape of the accumulators. *)
Lemma hessian_step_shape amp sigma i (acc acc' : Np.array * Np.array * Np.array) :
  length acc.1.1 = length x ∧ length acc.1.2 = length x
    ∧ length acc.2 = length x →
  hessian_step x y amp sigma e1 e2 center_x center_y i acc = Ok acc' →
  length acc'.1.1 = length x ∧ length acc'.1.2 = length x
    ∧ length acc'.2 = length x.
Proof.
  destruct acc as [[f_xx f_yy] f_xy]. simpl. intros (Lxx & Lyy & Lxy).
  unfold hessian_step, mbind, result_bind, rbind.
  destruct (getitem amp i) as [amp_i|e]; [|discriminate].
  destruct (getitem sigma i) as [sigma_i|e]; [|discriminate].
  destruct (gaussian_ellipse_kappa_hessian _ _ _ _ _ _ _ _)
    as [[[f_xx_i f_xy_i] f_yx_i] f_yy_i].
  destruct (Np.iadd f_xx f_xx_i) as [a|e] eqn:Ea; [|discriminate].
  destruct (Np.iadd f_yy f_yy_i) as [b|e] eqn:Eb; [|discriminate].
  destruct (Np.iadd f_xy f_xy_i) as [c|e] eqn:Ec; [|discriminate].
  intros [= <-]. simpl.
  apply iadd_length in Ea, Eb, Ec. repeat split; congruence.
Qed.

Lemma function_step_shape amp sigma i (acc acc' : Np.array) :
  length acc = length x →
  function_step x y amp sigma e1 e2 center_x center_y i acc = Ok acc' →
  length acc' = length x.
Proof.
  intros Lacc. unfold function_step, mbind, result_bind, rbind.
  destruct (getitem amp i) as [amp_i|e]; [|discriminate].
  destruct (getitem sigma i) as [sigma_i|e]; [|discriminate].
  intros E. apply iadd_length in E. congruence.
Qed.

Lemma derivatives_step_shape amp sigma i (acc acc' : Np.array * Np.array) :
  length acc.1 = length x ∧ length acc.2 = length x →
  derivatives_step x y amp sigma e1 e2 center_x center_y i acc = Ok acc' →
  length acc'.1 = length x ∧ length acc'.2 = length x.
Proof.
  destruct acc as [f_x f_y]. simpl. intros (Lx & Ly).
  unfold derivatives_step, mbind, result_bind, rbind.
  destruct (getitem amp i) as [amp_i|e]; [|discriminate].
  destruct (getitem sigma i) as [sigma_i|e]; [|discriminate].
  destruct (gaussian_ellipse_kappa_derivatives _ _ _ _ _ _ _ _)
    as [f_x_i f_y_i].
  destruct (Np.iadd f_x f_x_i) as [a|e] eqn:Ea; [|discriminate].
  destruct (Np.iadd f_y f_y_i) as [b|e] eqn:Eb; [|discriminate].
  intros [= <-]. simpl.
  apply iadd_length in Ea, Eb. split; congruence.
Qed.

Lemma density_2d_step_shape amp sigma i (acc acc' : Np.array) :
  length acc = length x →
  density_2d_step x y amp sigma e1 e2 center_x center_y i acc = Ok acc' →
  length acc' = length x.
Proof.
  intros Lacc. unfold density_2d_step, mbind, result_bind, rbind.
  destruct (getitem amp i) as [amp_i|e]; [|discriminate].
  destruct (getitem sigma i) as [sigma_i|e]; [|discriminate].
  intros E. apply iadd_length in E. congruence.
Qed.

(** Whatever the single-Gaussian profile returns and whatever the lengths
    of [amp] and [sigma] are: each array that [function], [derivatives],
    [hessian] or [density_2d] returns has the shape of [x]. *)
Theorem multi_gaussian_shapes amp sigma :
  returns_only (fun f => length f = length x)
    (function x y amp sigma e1 e2 center_x center_y)
  ∧ returns_only (fun '(f_x, f_y) =>
                    length f_x = length x ∧ length f_y = length x)
      (derivatives x y amp sigma e1 e2 center_x center_y)
  ∧ returns_only (fun '(f_xx, f_xy, f_yx, f_yy) =>
                    length f_xx = length x ∧ length f_xy = length x
                    ∧ length f_yx = length x ∧ length f_yy = length x)
      (hessian x y amp sigma e1 e2 center_x center_y)
  ∧ returns_only (fun f => length f = length x)
      (density_2d x y amp sigma e1 e2 center_x center_y).
Proof.
  split; [|split; [|split]].
  - unfold function. rewrite function_loop_over.
    destruct (loop_over _ _ _) as [r|e] eqn:E; [|done]. simpl.
    eapply (loop_over_invariant (fun f : Np.array => length f = length x));
      [|apply zeros_like_length|exact E].
    intros i s s'. apply function_step_shape.
  - unfold derivatives. rewrite derivatives_loop_over.
    destruct (loop_over _ _ _) as [[f_x f_y]|e] eqn:E; [|done]. simpl.
    apply (loop_over_invariant
             (fun acc : Np.array * Np.array =>
                length acc.1 = length x ∧ length acc.2 = length x)
             _ _ (Np.zeros_like x, Np.zeros_like x) (f_x, f_y)
             (fun i s s' => derivatives_step_shape amp sigma i s s')
             (conj (zeros_like_length x) (zeros_like_length x)) E).
  - unfold hessian. rewrite hessian_loop_over.
    destruct (loop_over _ _ _) as [[[f_xx f_yy] f_xy]|e] eqn:E; [|done].
    simpl.
    destruct (loop_over_invariant
             (fun acc : Np.array * Np.array * Np.array =>
                length acc.1.1 = length x ∧ length acc.1.2 = length x
                ∧ length acc.2 = length x)
             _ _ (Np.zeros_like x, Np.zeros_like x, Np.zeros_like x)
             (f_xx, f_yy, f_xy)
             (fun i s s' => hessian_step_shape amp sigma i s s')
             (conj (zeros_like_length x)
                (conj (zeros_like_length x) (zeros_like_length x))) E)
      as (Lxx & Lyy & Lxy).
    done.
  - unfold density_2d. rewrite density_2d_loop_over.
    destruct (loop_over _ _ _) as [r|e] eqn:E; [|done]. simpl.
    eapply (loop_over_invariant (fun f : Np.array => length f = length x));
      [|apply zeros_like_length|exact E].
    intros i s s'. apply density_2d_step_shape.
Qed.

(** Folds that add one array for each pair of two lists. *)
Lemma foldl_zip_add {A B} (f : A → B → Np.array) (la : list A) :
  ∀ (lb : list B) (z : Np.array),
    foldl (fun acc p => zip_with PrimFloat.add acc (f p.1 p.2)) z (zip la lb)
    = foldl (zip_with PrimFloat.add) z (zip_with f la lb).
Proof.
  induction la as [|a la IH]; intros [|b lb] z; try done. simpl. apply IH.
Qed.

Lemma foldl_zip_add2 {A B} (f : A → B → Np.array * Np.array) (la : list A) :
  ∀ (lb : list B) (z1 z2 : Np.array),
    foldl (fun acc p => (zip_with PrimFloat.add acc.1 (f p.1 p.2).1,
                         zip_with PrimFloat.add acc.2 (f p.1 p.2).2))
      (z1, z2) (zip la lb)
    = (foldl (zip_with PrimFloat.add) z1 (map fst (zip_with f la lb)),
       foldl (zip_with PrimFloat.add) z2 (map snd (zip_with f la lb))).
Proof.
  induction la as [|a la IH]; intros [|b lb] z1 z2; try done. simpl. apply IH.
Qed.

Lemma foldl_zip_add3 {A B}
    (f : A → B → Np.array * Np.array * Np.array * Np.array) (la : list A) :
  ∀ (lb : list B) (z1 z2 z3 : Np.array),
    foldl (fun acc p => (zip_with PrimFloat.add acc.1.1 (f p.1 p.2).1.1.1,
                         zip_with PrimFloat.add acc.1.2 (f p.1 p.2).2,
                         zip_with PrimFloat.add acc.2 (f p.1 p.2).1.1.2))
      (z1, z2, z3) (zip la lb)
    = (foldl (zip_with PrimFloat.add) z1
         (map (fun h => h.1.1.1) (zip_with f la lb)),
       foldl (zip_with PrimFloat.add) z2
         (map (fun h => h.2) (zip_with f la lb)),
       foldl (zip_with PrimFloat.add) z3
         (map (fun h => h.1.1.2) (zip_with f la lb))).
Proof.
  induction la as [|a la IH]; intros [|b lb] z1 z2 z3; try done.
  simpl. apply IH.
Qed.

(** [function] returns the sum of the component potentials, added from
    the left to an array of zeros, when each amplitude has a width and
    the component potentials have the shape of [x]. *)
Theorem function_sum amp sigma :
  length amp ≤ length sigma →
  (∀ a s, length (gaussian_ellipse_kappa_function x y a s e1 e2
                    center_x center_y) = length x) →
  function x y amp sigma e1 e2 center_x center_y
  = Ok (sum_arrays x
          (component_functions x y amp sigma e1 e2 center_x center_y)).
Proof.
  intros Hlen Hshape. unfold function, sum_arrays, component_functions.
  rewrite function_loop_over, <- foldl_zip_add.
  apply (loop_over_zip _ _ (fun f : Np.array => length f = length x));
    [|done|apply zeros_like_length].
  intros i a s acc Ha Hs Hacc. simpl.
  unfold function_step, getitem. rewrite Ha, Hs. simpl.
  rewrite iadd_same_shape by (rewrite Hshape; done).
  split; [done|]. rewrite length_zip_add by (rewrite Hshape; done). done.
Qed.

(** [density_2d] returns the sum of the component convergences, in the
    same way. *)
Theorem density_2d_sum amp sigma :
  length amp ≤ length sigma →
  (∀ a s, length (gaussian_ellipse_kappa_density_2d x y a s e1 e2
                    center_x center_y) = length x) →
  density_2d x y amp sigma e1 e2 center_x center_y
  = Ok (sum_arrays x
          (component_densities x y amp sigma e1 e2 center_x center_y)).
Proof.
  intros Hlen Hshape. unfold density_2d, sum_arrays, component_densities.
  rewrite density_2d_loop_over, <- foldl_zip_add.
  apply (loop_over_zip _ _ (fun f : Np.array => length f = length x));
    [|done|apply zeros_like_length].
  intros i a s acc Ha Hs Hacc. simpl.
  unfold density_2d_step, getitem. rewrite Ha, Hs. simpl.
  rewrite iadd_same_shape by (rewrite Hshape; done).
  split; [done|]. rewrite length_zip_add by (rewrite Hshape; done). done.
Qed.

(** [derivatives] returns the sums of the two components of the
    component deflections. *)
Theorem derivatives_sum amp sigma :
  length amp ≤ length sigma →
  (∀ a s, length (gaussian_ellipse_kappa_derivatives x y a s e1 e2
                    center_x center_y).1 = length x
          ∧ length (gaussian_ellipse_kappa_derivatives x y a s e1 e2
                      center_x center_y).2 = length x) →
  derivatives x y amp sigma e1 e2 center_x center_y
  = Ok (sum_arrays x
          (map fst
             (component_derivatives x y amp sigma e1 e2 center_x center_y)),
        sum_arrays x
          (map snd
             (component_derivatives x y amp sigma e1 e2 center_x center_y))).
Proof.
  intros Hlen Hshape. unfold derivatives, sum_arrays, component_derivatives.
  rewrite derivatives_loop_over, <- foldl_zip_add2.
  apply (loop_over_zip _ _
           (fun acc : Np.array * Np.array =>
              length acc.1 = length x ∧ length acc.2 = length x));
    [|done|split; apply zeros_like_length].
  intros i a s [f_x f_y] Ha Hs [Lx Ly]. simpl in *.
  unfold derivatives_step, getitem. rewrite Ha, Hs. simpl.
  destruct (Hshape a s) as [Sx Sy].
  destruct (gaussian_ellipse_kappa_derivatives x y a s e1 e2 center_x center_y)
    as [f_x_i f_y_i]. simpl in *.
  rewrite !iadd_same_shape by congruence. simpl.
  split; [done|]. rewrite !length_zip_add by congruence. done.
Qed.

(** [hessian] returns the sums of the component second derivatives; the
    mixed derivative is the sum of the second components, returned twice,
    and the third components are not used. *)
Theorem hessian_sum amp sigma :
  length amp ≤ length sigma →
  hessian_shaped x y e1 e2 center_x center_y →
  let components :=
    component_hessians x y amp sigma e1 e2 center_x center_y in
  hessian x y amp sigma e1 e2 center_x center_y
  = Ok (sum_arrays x (map (fun h => h.1.1.1) components),
        sum_arrays x (map (fun h => h.1.1.2) components),
        sum_arrays x (map (fun h => h.1.1.2) components),
        sum_arrays x (map (fun h => h.2) components)).
Proof.
  intros Hlen Hshape components.
  unfold hessian. rewrite hessian_loop_over.
  rewrite (loop_over_zip _
             (fun acc p =>
                let h := gaussian_ellipse_kappa_hessian x y p.1 p.2 e1 e2
                           center_x center_y in
                (zip_with PrimFloat.add acc.1.1 h.1.1.1,
                 zip_with PrimFloat.add acc.1.2 h.2,
                 zip_with PrimFloat.add acc.2 h.1.1.2))
             (fun acc : Np.array * Np.array * Np.array =>
                length acc.1.1 = length x ∧ length acc.1.2 = length x
                ∧ length acc.2 = length x)
             amp sigma).
  - simpl.
    rewrite (foldl_zip_add3
               (fun a s => gaussian_ellipse_kappa_hessian x y a s e1 e2
                             center_x center_y)).
    reflexivity.
  - intros i a s [[f_xx f_yy] f_xy] Ha Hs (Lxx & Lyy & Lxy). simpl in *.
    unfold hessian_step, getitem. rewrite Ha, Hs. simpl.
    specialize (Hshape a s).
    destruct (gaussian_ellipse_kappa_hessian x y a s e1 e2 center_x center_y)
      as [[[f_xx_i f_xy_i] f_yx_i] f_yy_i]. simpl in *.
    destruct Hshape as (Sxx & Sxy & Syy).
    rewrite !iadd_same_shape by congruence. simpl.
    split; [done|]. rewrite !length_zip_add by congruence. done.
  - done.
  - repeat split; apply zeros_like_length.
Qed.

(** Widths beyond the number of amplitudes are not read: they change the
    result of none of the four methods. *)
Theorem multi_gaussian_extra_widths amp sigma extra :
  length amp ≤ length sigma →
  function x y amp (sigma ++ extra) e1 e2 center_x center_y
    = function x y amp sigma e1 e2 center_x center_y
  ∧ derivatives x y amp (sigma ++ extra) e1 e2 center_x center_y
    = derivatives x y amp sigma e1 e2 center_x center_y
  ∧ hessian x y amp (sigma ++ extra) e1 e2 center_x center_y
    = hessian x y amp sigma e1 e2 center_x center_y
  ∧ density_2d x y amp (sigma ++ extra) e1 e2 center_x center_y
    = density_2d x y amp sigma e1 e2 center_x center_y.
Proof.
  intros Hlen.
  assert (Hget : ∀ i, i ∈ seq 0 (length amp) →
            getitem (sigma ++ extra) i = getitem sigma i).
  { intros i Hi. apply elem_of_seq in Hi. unfold getitem.
    rewrite lookup_app_l by lia. done. }
  split; [|split; [|split]].
  - unfold function. rewrite !function_loop_over.
    apply loop_over_ext. intros i s Hi.
    unfold function_step. by rewrite (Hget i Hi).
  - unfold derivatives. rewrite !derivatives_loop_over.
    apply loop_over_ext. intros i [f_x f_y] Hi.
    unfold derivatives_step. by rewrite (Hget i Hi).
  - unfold hessian. rewrite !hessian_loop_over.
    assert (E : loop_over
                  (hessian_step x y amp (sigma ++ extra) e1 e2
                     center_x center_y)
                  (seq 0 (length amp))
                  (Np.zeros_like x, Np.zeros_like x, Np.zeros_like x)
                = loop_over
                    (hessian_step x y amp sigma e1 e2 center_x center_y)
                    (seq 0 (length amp))
                    (Np.zeros_like x, Np.zeros_like x, Np.zeros_like x)).
    { apply loop_over_ext. intros i [[f_xx f_yy] f_xy] Hi.
      unfold hessian_step. by rewrite (Hget i Hi). }
    by rewrite E.
  - unfold density_2d. rewrite !density_2d_loop_over.
    apply loop_over_ext. intros i s Hi.
    unfold density_2d_step. by rewrite (Hget i Hi).
Qed.

(** With fewer widths than amplitudes, and components of the shape of
    [x], each of the four methods raises an [IndexError]. *)
Theorem multi_gaussian_too_few_widths amp sigma :
  length sigma < length amp →
  hessian_shaped x y e1 e2 center_x center_y →
  profile_shaped x y e1 e2 center_x center_y →
  function x y amp sigma e1 e2 center_x center_y = Raise IndexError
  ∧ derivatives x y amp sigma e1 e2 center_x center_y = Raise IndexError
  ∧ hessian x y amp sigma e1 e2 center_x center_y = Raise IndexError
  ∧ density_2d x y amp sigma e1 e2 center_x center_y = Raise IndexError.
Proof.
  intros Hlen Hhess Hprof.
  assert (Hlast : ∃ a, amp !! length sigma = Some a)
    by (by apply lookup_lt_is_Some_2).
  destruct Hlast as [a_m Ha_m].
  assert (Hs_m : sigma !! length sigma = None)
    by (by apply lookup_ge_None_2).
  assert (Hbefore : ∀ i, i < length sigma →
            ∃ a s, amp !! i = Some a ∧ sigma !! i = Some s).
  { intros i Hi.
    destruct (lookup_lt_is_Some_2 amp i ltac:(lia)) as [a Ha].
    destruct (lookup_lt_is_Some_2 sigma i Hi) as [s Hs]. eauto. }
  split; [|split; [|split]].
  - unfold function. rewrite function_loop_over.
    apply (loop_over_raises (fun f : Np.array => length f = length x)
             _ (length sigma)); [done| | |apply zeros_like_length].
    + intros i acc Hi Hacc. destruct (Hbefore i Hi) as (a & s & Ha & Hs).
      destruct (Hprof a s) as (Sf & _).
      unfold function_step, getitem. rewrite Ha, Hs. simpl.
      rewrite iadd_same_shape by congruence.
      eexists. split; [done|]. rewrite length_zip_add by congruence. done.
    + intros acc _. unfold function_step, getitem. by rewrite Ha_m, Hs_m.
  - unfold derivatives. rewrite derivatives_loop_over.
    apply (loop_over_raises
             (fun acc : Np.array * Np.array =>
                length acc.1 = length x ∧ length acc.2 = length x)
             _ (length sigma));
      [done| | |split; apply zeros_like_length].
    + intros i [f_x f_y] Hi [Lx Ly]. simpl in *.
      destruct (Hbefore i Hi) as (a & s & Ha & Hs).
      destruct (Hprof a s) as (_ & Sx & Sy & _).
      unfold derivatives_step, getitem. rewrite Ha, Hs. simpl.
      destruct (gaussian_ellipse_kappa_derivatives x y a s e1 e2
                  center_x center_y) as [f_x_i f_y_i]. simpl in *.
      rewrite !iadd_same_shape by congruence. simpl.
      eexists. split; [done|]. simpl.
      rewrite !length_zip_add by congruence. done.
    + intros [f_x f_y] _. unfold derivatives_step, getitem.
      by rewrite Ha_m, Hs_m.
  - unfold hessian. rewrite hessian_loop_over.
    rewrite (loop_over_raises
               (fun acc : Np.array * Np.array * Np.array =>
                  length acc.1.1 = length x ∧ length acc.1.2 = length x
                  ∧ length acc.2 = length x)
               _ (length sigma) (length amp) IndexError); [done|done| | |].
    + intros i [[f_xx f_yy] f_xy] Hi (Lxx & Lyy & Lxy). simpl in *.
      destruct (Hbefore i Hi) as (a & s & Ha & Hs).
      specialize (Hhess a s).
      unfold hessian_step, getitem. rewrite Ha, Hs. simpl.
      destruct (gaussian_ellipse_kappa_hessian x y a s e1 e2
                  center_x center_y)
        as [[[f_xx_i f_xy_i] f_yx_i] f_yy_i]. simpl in *.
      destruct Hhess as (Sxx & Sxy & Syy).
      rewrite !iadd_same_shape by congruence. simpl.
      eexists. split; [done|]. simpl.
      rewrite !length_zip_add by congruence. done.
    + intros [[f_xx f_yy] f_xy] _. unfold hessian_step, getitem.
      by rewrite Ha_m, Hs_m.
    + repeat split; apply zeros_like_length.
  - unfold density_2d. rewrite density_2d_loop_over.
    apply (loop_over_raises (fun f : Np.array => length f = length x)
             _ (length sigma)); [done| | |apply zeros_like_length].
    + intros i acc Hi Hacc. destruct (Hbefore i Hi) as (a & s & Ha & Hs).
      destruct (Hprof a s) as (_ & _ & _ & Sd).
      unfold density_2d_step, getitem. rewrite Ha, Hs. simpl.
      rewrite iadd_same_shape by congruence.
      eexists. split; [done|]. rewrite length_zip_add by congruence. done.
    + intros acc _. unfold density_2d_step, getitem. by rewrite Ha_m, Hs_m.
Qed.

End MultiGaussian.

Lemma function_sum_witness :
  @MultiGaussianEllipseKappaProfile.function gaussian_profile
    [1; 2; 3]%float [0; 1; 0]%float [2; 4]%float [1; 2; 8]%float
    0.5%float 0%float 0%float 0%float
  = Ok (sum_arrays [1; 2; 3]%float
          (@component_functions gaussian_profile
             [1; 2; 3]%float [0; 1; 0]%float [2; 4]%float [1; 2; 8]%float
             0.5%float 0%float 0%float 0%float)).
Proof.
  apply (@function_sum gaussian_profile).
  - simpl. lia.
  - intros a s. reflexivity.
Defined.

Lemma density_2d_sum_witness :
  @MultiGaussianEllipseKappaProfile.density_2d gaussian_profile
    [1; 2; 3]%float [0; 1; 0]%float [2; 4]%float [1; 2; 8]%float
    0.5%float 0%float 0%float 0%float
  = Ok (sum_arrays [1; 2; 3]%float
          (@component_densities gaussian_profile
             [1; 2; 3]%float [0; 1; 0]%float [2; 4]%float [1; 2; 8]%float
             0.5%float 0%float 0%float 0%float)).
Proof.
  apply (@density_2d_sum gaussian_profile).
  - simpl. lia.
  - intros a s. reflexivity.
Defined.

Lemma derivatives_sum_witness :
  @MultiGaussianEllipseKappaProfile.derivatives gaussian_profile
    [1; 2; 3]%float [0; 1; 0]%float [2; 4]%float [1; 2; 8]%float
    0.5%float 0%float 0%float 0%float
  = Ok (sum_arrays [1; 2; 3]%float
          (map fst
             (@component_derivatives gaussian_profile
                [1; 2; 3]%float [0; 1; 0]%float [2; 4]%float [1; 2; 8]%float
                0.5%float 0%float 0%float 0%float)),
        sum_arrays [1; 2; 3]%float
          (map snd
             (@component_derivatives gaussian_profile
                [1; 2; 3]%float [0; 1; 0]%float [2; 4]%float [1; 2; 8]%float
                0.5%float 0%float 0%float 0%float))).
Proof.
  apply (@derivatives_sum gaussian_profile).
  - simpl. lia.
  - intros a s. split; reflexivity.
Defined.

Lemma hessian_sum_witness :
  let components :=
    @component_hessians Demo.gaussian
      [1; 2; 3]%float [0; 1; 0]%float [2; 4]%float [1; 2; 8]%float
      0.5%float 0%float 0%float 0%float in
  @MultiGaussianEllipseKappa.hessian Demo.gaussian
    [1; 2; 3]%float [0; 1; 0]%float [2; 4]%float [1; 2; 8]%float
    0.5%float 0%float 0%float 0%float
  = Ok (sum_arrays [1; 2; 3]%float (map (fun h => h.1.1.1) components),
        sum_arrays [1; 2; 3]%float (map (fun h => h.1.1.2) components),
        sum_arrays [1; 2; 3]%float (map (fun h => h.1.1.2) components),
        sum_arrays [1; 2; 3]%float (map (fun h => h.2) components)).
Proof.
  apply (@hessian_sum Demo.gaussian).
  - simpl. lia.
  - intros a s. simpl. repeat split; reflexivity.
Defined.

Lemma multi_gaussian_extra_widths_witness :
  @MultiGaussianEllipseKappaProfile.function gaussian_profile
    [1; 2; 3]%float [0; 1; 0]%float [2; 4]%float ([1; 2] ++ [8])%float
    0.5%float 0%float 0%float 0%float
  = @MultiGaussianEllipseKappaProfile.function gaussian_profile
      [1; 2; 3]%float [0; 1; 0]%float [2; 4]%float [1; 2]%float
      0.5%float 0%float 0%float 0%float
  ∧ @MultiGaussianEllipseKappaProfile.derivatives gaussian_profile
      [1; 2; 3]%float [0; 1; 0]%float [2; 4]%float ([1; 2] ++ [8])%float
      0.5%float 0%float 0%float 0%float
    = @MultiGaussianEllipseKappaProfile.derivatives gaussian_profile
        [1; 2; 3]%float [0; 1; 0]%float [2; 4]%float [1; 2]%float
        0.5%float 0%float 0%float 0%float
  ∧ @MultiGaussianEllipseKappa.hessian Demo.gaussian
      [1; 2; 3]%float [0; 1; 0]%float [2; 4]%float ([1; 2] ++ [8])%float
      0.5%float 0%float 0%float 0%float
    = @MultiGaussianEllipseKappa.hessian Demo.gaussian
        [1; 2; 3]%float [0; 1; 0]%float [2; 4]%float [1; 2]%float
        0.5%float 0%float 0%float 0%float
  ∧ @MultiGaussianEllipseKappaProfile.density_2d gaussian_profile
      [1; 2; 3]%float [0; 1; 0]%float [2; 4]%float ([1; 2] ++ [8])%float
      0.5%float 0%float 0%float 0%float
    = @MultiGaussianEllipseKappaProfile.density_2d gaussian_profile
        [1; 2; 3]%float [0; 1; 0]%float [2; 4]%float [1; 2]%float
        0.5%float 0%float 0%float 0%float.
Proof.
  apply (@multi_gaussian_extra_widths Demo.gaussian gaussian_profile).
  simpl. lia.
Defined.

Lemma multi_gaussian_too_few_widths_witness :
  @MultiGaussianEllipseKappaProfile.function gaussian_profile
    [1; 2; 3]%float [0; 1; 0]%float [2; 4]%float [1]%float
    0.5%float 0%float 0%float 0%float
  = Raise IndexError
  ∧ @MultiGaussianEllipseKappaProfile.derivatives gaussian_profile
      [1; 2; 3]%float [0; 1; 0]%float [2; 4]%float [1]%float
      0.5%float 0%float 0%float 0%float
    = Raise IndexError
  ∧ @MultiGaussianEllipseKappa.hessian Demo.gaussian
      [1; 2; 3]%float [0; 1; 0]%float [2; 4]%float [1]%float
      0.5%float 0%float 0%float 0%float
    = Raise IndexError
  ∧ @MultiGaussianEllipseKappaProfile.density_2d gaussian_profile
      [1; 2; 3]%float [0; 1; 0]%float [2; 4]%float [1]%float
      0.5%float 0%float 0%float 0%float
    = Raise IndexError.
Proof.
  apply (@multi_gaussian_too_few_widths Demo.gaussian gaussian_profile).
  - simpl. lia.
  - intros a s. simpl. repeat split; reflexivity.
  - intros a s. simpl. repeat split; reflexivity.
Defined.

(** The potential, deflection and convergence of the example. *)
Example multi_gaussian_example :
  @MultiGaussianEllipseKappaProfile.function gaussian_profile
    [1; 2; 3]%float [0; 1; 0]%float [2; 4]%float [1; 2; 8]%float
    0.5%float 0%float 0%float 0%float
  = Ok [4; 28; 36]%float
  ∧ @MultiGaussianEllipseKappaProfile.derivatives gaussian_profile
      [1; 2; 3]%float [0; 1; 0]%float [2; 4]%float [1; 2; 8]%float
      0.5%float 0%float 0%float 0%float
    = Ok ([8; 20; 24], [4; 16; 12])%float
  ∧ @MultiGaussianEllipseKappaProfile.density_2d gaussian_profile
      [1; 2; 3]%float [] [2; 4]%float [1; 2; 8]%float
      0.5%float 0%float 0%float 0%float
    = Ok [8; 8; 8]%float
  ∧ @MultiGaussianEllipseKappaProfile.function gaussian_profile
      [1; 2; 3]%float [0; 1; 0]%float [] [1; 2; 8]%float
      0.5%float 0%float 0%float 0%float
    = Ok [0; 0; 0]%float.
Proof. repeat split; vm_compute; reflexivity. Qed.

(** ** The base class of the point-source types *)

Section BasePSProperties.
Context {LensModel : Type}.

Lemma py_getitem_in_range {A} (l : list A) (i : Z) :
  (- Z.of_nat (length l) ≤ i < Z.of_nat (length l))%Z →
  ∃ a, BasePS.py_getitem l i = Ok a
       ∧ l !! Z.to_nat (i `mod` Z.of_nat (length l)) = Some a.
Proof.
  intros Hi. unfold BasePS.py_getitem, getitem.
  destruct (decide (0 ≤ i)%Z) as [Hpos|Hneg].
  - rewrite (proj2 (Z.leb_le 0 i)), (proj2 (Z.ltb_lt _ _)) by lia. simpl.
    rewrite Z.mod_small by lia.
    destruct (lookup_lt_is_Some_2 l (Z.to_nat i) ltac:(lia)) as [a Ha].
    rewrite Ha. eauto.
  - rewrite (proj2 (Z.leb_gt 0 i)) by lia. simpl.
    rewrite (proj2 (Z.leb_le _ _)), (proj2 (Z.ltb_lt _ _)) by lia. simpl.
    rewrite <- (Z.mod_add i 1) by lia. rewrite Z.mod_small by lia.
    replace (i + 1 * Z.of_nat (length l))%Z
      with (Z.of_nat (length l) + i)%Z by lia.
    destruct (lookup_lt_is_Some_2 l (Z.to_nat (Z.of_nat (length l) + i))
                ltac:(lia)) as [a Ha].
    rewrite Ha. eauto.
Qed.

Lemma py_getitem_out_of_range {A} (l : list A) (i : Z) :
  ¬ (- Z.of_nat (length l) ≤ i < Z.of_nat (length l))%Z →
  BasePS.py_getitem l i = Raise IndexError.
Proof.
  intros Hi. unfold BasePS.py_getitem.
  destruct (0 <=? i)%Z eqn:E1, (i <? Z.of_nat (length l))%Z eqn:E2;
    destruct (- Z.of_nat (length l) <=? i)%Z eqn:E3, (i <? 0)%Z eqn:E4;
    simpl; try done; lia.
Qed.

Lemma k_list_loop_in_range (index_lens_model_list : list (list Z)) frames :
  ∀ acc,
    (∀ f, f ∈ frames →
       (- Z.of_nat (length index_lens_model_list) ≤ f
        < Z.of_nat (length index_lens_model_list))%Z) →
    ∃ ks,
      BasePS.k_list_loop index_lens_model_list frames acc = Ok (acc ++ ks)
      ∧ length ks = length frames
      ∧ ∀ i f, frames !! i = Some f →
          ks !! i
          = index_lens_model_list
              !! Z.to_nat (f `mod` Z.of_nat (length index_lens_model_list)).
Proof.
  induction frames as [|f frames IH]; intros acc Hrange.
  - exists []. rewrite app_nil_r. done.
  - destruct (py_getitem_in_range index_lens_model_list f) as (k & Hk & Hlk).
    { apply Hrange. left. }
    destruct (IH (acc ++ [k])) as (ks & Hrun & Hlen & Hks).
    { intros g Hg. apply Hrange. by right. }
    exists (k :: ks). split; [|split].
    + simpl. rewrite Hk. simpl. rewrite Hrun. by rewrite <- app_assoc.
    + simpl. by rewrite Hlen.
    + intros [|i] g Hg; simpl in *.
      * injection Hg as <-. by rewrite Hlk.
      * by apply Hks.
Qed.

Lemma k_list_loop_out_of_range (index_lens_model_list : list (list Z)) frames :
  ∀ acc,
    (∃ f, f ∈ frames ∧
       ¬ (- Z.of_nat (length index_lens_model_list) ≤ f
          < Z.of_nat (length index_lens_model_list))%Z) →
    BasePS.k_list_loop index_lens_model_list frames acc = Raise IndexError.
Proof.
  induction frames as [|f frames IH]; intros acc (g & Hg & Hout).
  - by apply elem_of_nil in Hg.
  - simpl.
    destruct (decide (- Z.of_nat (length index_lens_model_list) ≤ f
                      < Z.of_nat (length index_lens_model_list))%Z)
      as [Hin|Hnot].
    + destruct (py_getitem_in_range index_lens_model_list f Hin)
        as (k & -> & _). simpl.
      apply IH. exists g. split; [|done].
      apply elem_of_cons in Hg as [->|Hg]; [contradiction|done].
    + by rewrite py_getitem_out_of_range.
Qed.

(** With frames that are indices of [index_lens_model_list] (negative
    ones counting from its end), construction returns, and [k_list] has
    one entry for each frame: the lens-model indices of that frame's
    band. *)
Theorem init_k_list (lens_model : option LensModel) fixed_magnification
    additional_images (index_lens_model_list : list (list Z)) frames redshift :
  (∀ f, f ∈ frames →
     (- Z.of_nat (length index_lens_model_list) ≤ f
      < Z.of_nat (length index_lens_model_list))%Z) →
  ∃ self ks,
    BasePS.__init__ lens_model fixed_magnification additional_images
      (Some index_lens_model_list) (Some frames) redshift = Ok self
    ∧ BasePS.k_list self = Some ks
    ∧ length ks = length frames
    ∧ ∀ i f, frames !! i = Some f →
        ks !! i
        = index_lens_model_list
            !! Z.to_nat (f `mod` Z.of_nat (length index_lens_model_list)).
Proof.
  intros Hrange.
  destruct (k_list_loop_in_range index_lens_model_list frames [] Hrange)
    as (ks & Hrun & Hlen & Hks).
  eexists _, ks. unfold BasePS.__init__. rewrite Hrun. simpl.
  split; [reflexivity|]. simpl. done.
Qed.

(** A frame that is no index of [index_lens_model_list] makes the
    construction raise an [IndexError]; without a frame list it raises a
    [TypeError]. *)
Theorem init_frame_out_of_range (lens_model : option LensModel)
    fixed_magnification additional_images
    (index_lens_model_list : list (list Z)) frames redshift f :
  f ∈ frames →
  ¬ (- Z.of_nat (length index_lens_model_list) ≤ f
     < Z.of_nat (length index_lens_model_list))%Z →
  BasePS.__init__ lens_model fixed_magnification additional_images
    (Some index_lens_model_list) (Some frames) redshift = Raise IndexError
  ∧ BasePS.__init__ lens_model fixed_magnification additional_images
      (Some index_lens_model_list) None redshift = Raise TypeError.
Proof.
  intros Hf Hout. split; [|done].
  unfold BasePS.__init__.
  rewrite (k_list_loop_out_of_range index_lens_model_list frames []); [done|].
  by exists f.
Qed.

(** After construction and any sequence of [update_lens_model] calls the
    solver is the one of the current lens model (no solver exactly when
    there is no lens model), the lens model is the last one given, and
    [k_list], the redshift and the two flags are those of the
    construction. *)
Theorem update_lens_model_solver (lens_model : option LensModel)
    fixed_magnification additional_images index_lens_model_list frames
    redshift self (updates : list (option LensModel)) :
  BasePS.__init__ lens_model fixed_magnification additional_images
    index_lens_model_list frames redshift = Ok self →
  let self' := foldl BasePS.update_lens_model self updates in
  BasePS._lens_model self' = default lens_model (last updates)
  ∧ BasePS._solver self'
    = BasePS.Build_LensEquationSolver <$> BasePS._lens_model self'
  ∧ BasePS.k_list self' = BasePS.k_list self
  ∧ BasePS._redshift self' = redshift
  ∧ BasePS._fixed_magnification self' = fixed_magnification
  ∧ BasePS.additional_images self' = additional_images.
Proof.
  intros Hinit. unfold BasePS.__init__ in Hinit.
  destruct (match index_lens_model_list with Some _ => _ | None => _ end)
    as [ks|e]; [|discriminate].
  simpl in Hinit. injection Hinit as <-.
  induction updates as [|u updates IH] using rev_ind.
  - simpl. by destruct lens_model.
  - intros self'. subst self'. rewrite foldl_app. simpl.
    rewrite last_snoc. simpl.
    destruct IH as (_ & _ & Hk & Hz & Hfm & Hai).
    repeat split; try done; by destruct u.
Qed.

End BasePSProperties.

(** ** Expanding and shrinking arrays *)

Lemma expand_to_array_eq (xs : Np.array) num :
  BasePS._expand_to_array (BasePS.Array xs) num
  = xs ++ replicate (num - length xs) 0%float.
Proof.
  unfold BasePS._expand_to_array, BasePS.zeros_with_prefix.
  destruct (Nat.ltb_spec (length xs) num) as [Hlt|Hge].
  - by rewrite drop_replicate.
  - replace (num - length xs) with 0 by lia. by rewrite app_nil_r.
Qed.

(** [_expand_to_array] keeps each entry of an array at its place and
    never drops one; the entries it adds, up to [num], are zero. *)
Theorem expand_to_array_lookup (xs : Np.array) num i :
  BasePS._expand_to_array (BasePS.Array xs) num !! i
  = if decide (i < length xs) then xs !! i
    else if decide (i < num) then Some 0%float
    else None.
Proof.
  rewrite expand_to_array_eq.
  destruct (decide (i < length xs)) as [Hi|Hi].
  - by rewrite lookup_app_l.
  - rewrite lookup_app_r by lia.
    destruct (decide (i < num)) as [Hn|Hn].
    + apply lookup_replicate_2. lia.
    + apply lookup_replicate_None. lia.
Qed.

(** [_shrink_array] on an array returns its first [num] entries when it
    has that many, and raises the [ValueError] that names the two lengths
    when it is shorter. *)
Lemma shrink_array_cases (xs : Np.array) num :
  BasePS._shrink_array (BasePS.Array xs) num
  = if decide (num ≤ length xs) then Ok (BasePS.Array (take num xs))
    else Raise (ValueError (BasePS.MSG_SHRINK (length xs) num)).
Proof.
  unfold BasePS._shrink_array.
  destruct (Nat.ltb_spec num (length xs)) as [Hlt|Hge].
  - by rewrite decide_True by lia.
  - destruct (Nat.ltb_spec (length xs) num) as [Hlt'|Hge'].
    + by rewrite decide_False by lia.
    + rewrite decide_True by lia. by rewrite take_ge by lia.
Qed.

(** [_shrink_array] on an array either returns exactly [num] entries,
    the first ones of the array, which happens when the array has at
    least [num] entries, or raises the [ValueError] whose message names
    the length of the array and [num], when the array is shorter. *)
Theorem shrink_array_exact (xs : Np.array) num :
  (num ≤ length xs
   ∧ BasePS._shrink_array (BasePS.Array xs) num
     = Ok (BasePS.Array (take num xs))
   ∧ length (take num xs) = num)
  ∨ (length xs < num
     ∧ BasePS._shrink_array (BasePS.Array xs) num
       = Raise (ValueError (BasePS.MSG_SHRINK (length xs) num))).
Proof.
  rewrite shrink_array_cases.
  destruct (decide (num ≤ length xs)) as [Hle|Hgt].
  - left. split; [done|]. split; [done|]. rewrite length_take. lia.
  - right. split; [lia|done].
Qed.

(** Shrinking an expanded array to its original length gives the array
    back. *)
Theorem shrink_expand_round_trip (xs : Np.array) num :
  length xs ≤ num →
  BasePS._shrink_array
    (BasePS.Array (BasePS._expand_to_array (BasePS.Array xs) num))
    (length xs)
  = Ok (BasePS.Array xs).
Proof.
  intros Hlen. rewrite shrink_array_cases, expand_to_array_eq.
  rewrite decide_True by (rewrite length_app; lia).
  by rewrite take_app_length.
Qed.

Lemma shrink_expand_round_trip_witness :
  BasePS._shrink_array
    (BasePS.Array (BasePS._expand_to_array (BasePS.Array [1; nan]%float) 4))
    (length [1; nan]%float)
  = Ok (BasePS.Array [1; nan]%float).
Proof. apply (shrink_expand_round_trip [1; nan]%float 4). simpl. lia. Defined.

(** Expanding to [num] entries and then shrinking to [num] entries never
    raises, for a number and for an array of any length; the result has
    [num] entries, and for an array they are the first [num] entries of
    the array followed by zeros. *)
Theorem expand_then_shrink (array : BasePS.scalar_or_array) num :
  ∃ ys,
    BasePS._shrink_array (BasePS.Array (BasePS._expand_to_array array num)) num
    = Ok (BasePS.Array ys)
    ∧ length ys = num
    ∧ ∀ xs, array = BasePS.Array xs →
        ys = take num (xs ++ replicate (num - length xs) 0%float).
Proof.
  rewrite shrink_array_cases. destruct array as [x|xs].
  - simpl. rewrite length_map, length_replicate.
    rewrite decide_True by lia. eexists. split; [done|].
    split; [|done].
    rewrite length_take, length_map, length_replicate. lia.
  - rewrite expand_to_array_eq.
    rewrite decide_True by (rewrite length_app, length_replicate; lia).
    eexists. split; [done|]. split.
    + rewrite length_take, length_app, length_replicate. lia.
    + by intros ? [= <-].
Qed.

Example expand_shrink_examples :
  BasePS._expand_to_array (BasePS.Scalar 2.5) 3 = [2.5; 2.5; 2.5]%float
  ∧ BasePS._expand_to_array (BasePS.Array [1; 2]%float) 4 = [1; 2; 0; 0]%float
  ∧ BasePS._expand_to_array (BasePS.Array [1; 2; 3]%float) 2 = [1; 2; 3]%float
  ∧ BasePS._shrink_array (BasePS.Array [1; 2; 3]%float) 2
    = Ok (BasePS.Array [1; 2]%float)
  ∧ BasePS._shrink_array (BasePS.Scalar 7) 2 = Ok (BasePS.Scalar 7)
  ∧ BasePS._shrink_array (BasePS.Array [1; 2]%float) 12
    = Raise (ValueError
        "the length of the array (2) needs to be larger or equal than the designated length 12 ").
Proof. repeat split; vm_compute; reflexivity. Qed.

Lemma init_k_list_witness :
  ∃ self ks,
    BasePS.__init__ (Some tt) false false
      (Some [[0]; [2; 3]; [1]]%Z) (Some [1; 2; 0; -2]%Z) None = Ok self
    ∧ BasePS.k_list self = Some ks
    ∧ length ks = length [1; 2; 0; -2]%Z
    ∧ ∀ i f, [1; 2; 0; -2]%Z !! i = Some f →
        ks !! i
        = [[0]; [2; 3]; [1]]%Z
            !! Z.to_nat (f `mod` Z.of_nat (length [[0]; [2; 3]; [1]]%Z)).
Proof.
  apply (init_k_list (Some tt) false false [[0]; [2; 3]; [1]]%Z
           [1; 2; 0; -2]%Z None).
  intros f Hf. rewrite !elem_of_cons, elem_of_nil in Hf. simpl. lia.
Defined.

(** The example of the source's comment, and a frame counted from the
    end. *)
Example k_list_example :
  result_map BasePS.k_list
    (BasePS.__init__ (LensModel := unit) None false false
       (Some [[0]; [2; 3]; [1]]%Z) (Some [1; 2; 0; 1]%Z) None)
  = Ok (Some [[2; 3]; [1]; [0]; [2; 3]]%Z)
  ∧ result_map BasePS.k_list
      (BasePS.__init__ (LensModel := unit) None false false
         (Some [[0]; [2; 3]; [1]]%Z) (Some [-1]%Z) None)
    = Ok (Some [[1]]%Z).
Proof. split; reflexivity. Qed.

Lemma init_frame_out_of_range_witness :
  BasePS.__init__ (Some tt) true true (Some [[0]; [2; 3]; [1]]%Z)
    (Some [1; 3]%Z) None = Raise IndexError
  ∧ BasePS.__init__ (Some tt) true true (Some [[0]; [2; 3]; [1]]%Z)
      None None = Raise TypeError.
Proof.
  apply (init_frame_out_of_range (Some tt) true true [[0]; [2; 3]; [1]]%Z
           [1; 3]%Z None 3%Z).
  - rewrite !elem_of_cons. tauto.
  - simpl. lia.
Defined.

Lemma update_lens_model_solver_witness :
  let self :=
    {| BasePS._redshift := None; BasePS._lens_model := Some 1%nat;
       BasePS.k_list := None;
       BasePS._solver := Some {| BasePS.solver_lens_model := 1%nat |};
       BasePS._fixed_magnification := true;
       BasePS.additional_images := false |} in
  let self' := foldl BasePS.update_lens_model self [None; Some 2%nat] in
  BasePS._lens_model self' = default (Some 1%nat) (last [None; Some 2%nat])
  ∧ BasePS._solver self'
    = BasePS.Build_LensEquationSolver <$> BasePS._lens_model self'
  ∧ BasePS.k_list self' = BasePS.k_list self
  ∧ BasePS._redshift self' = None
  ∧ BasePS._fixed_magnification self' = true
  ∧ BasePS.additional_images self' = false.
Proof.
  apply (update_lens_model_solver (Some 1%nat) true false None None None).
  reflexivity.
Defined.

(** ** Names of the images in [point_source_plot] *)

Lemma names_loop_map name_list index m : ∀ k acc,
  k + m ≤ length name_list →
  LensPlot.names_loop name_list index (seq k m) acc
  = Ok (acc ++ map (fun name => pretty (index + 1)%Z +:+ name)
                 (take m (drop k name_list))).
Proof.
  induction m as [|m IH]; intros k acc Hlen.
  - simpl. by rewrite app_nil_r.
  - destruct (lookup_lt_is_Some_2 name_list k ltac:(lia)) as [name Hname].
    simpl. unfold getitem. rewrite Hname. simpl.
    rewrite IH by lia. rewrite (drop_S _ _ _ Hname). simpl.
    by rewrite <- app_assoc.
Qed.

Lemma image_names_eq name_list index :
  LensPlot.image_names name_list index
  = Ok (match index with
        | None => default LensPlot._NAME_LIST name_list
        | Some index =>
            map (fun name => pretty (index + 1)%Z +:+ name)
              (default LensPlot._NAME_LIST name_list)
        end).
Proof.
  unfold LensPlot.image_names.
  destruct name_list as [name_list|], index as [index|]; try done.
  rewrite names_loop_map by (simpl; lia).
  by rewrite drop_0, firstn_all.
Qed.

(** The first block of [point_source_plot] never raises.  Without an
    [index] the names of the images are the given names, or the letters
    A to K when none are given; with an [index] there is one name for
    each of these, in their order: the decimal numeral of [index + 1]
    followed by the given name or letter. *)
Theorem image_names_spec name_list index :
  ∃ names,
    LensPlot.image_names name_list index = Ok names
    ∧ length names = length (default LensPlot._NAME_LIST name_list)
    ∧ ∀ i name, default LensPlot._NAME_LIST name_list !! i = Some name →
        names !! i
        = Some (match index with
                | None => name
                | Some index => pretty (index + 1)%Z +:+ name
                end).
Proof.
  rewrite image_names_eq. eexists. split; [done|].
  destruct index as [index|].
  - split; [apply length_map|].
    intros i name Hi. by rewrite list_lookup_fmap, Hi.
  - done.
Qed.

Lemma Ok_inj {A} (a b : A) : Ok a = Ok b → a = b.
Proof. by intros [= ->]. Qed.

Lemma append_char_inj (s s' : string) (c c' : Ascii.ascii) :
  s +:+ String c "" = s' +:+ String c' "" → s = s' ∧ c = c'.
Proof.
  revert s'. induction s as [|a s IH]; intros [|a' s']; simpl.
  - by intros [= ->].
  - intros [= -> E]. by destruct s'.
  - intros [= -> E]. by destruct s.
  - intros [= -> E]. destruct (IH s' E) as [-> ->]. done.
Qed.

Lemma name_list_letters i name :
  LensPlot._NAME_LIST !! i = Some name → ∃ c, name = String c "".
Proof.
  unfold LensPlot._NAME_LIST.
  do 11 (destruct i as [|i]; [intros [= <-]; eauto|]). done.
Qed.

Lemma name_list_NoDup : NoDup LensPlot._NAME_LIST.
Proof. apply (bool_decide_unpack _). vm_compute. reflexivity. Qed.

(** With the default letters, the names of the images of different
    sources differ: a name determines the [index] of its source and the
    position of its image. *)
Theorem default_names_injective index index' names names' i i' name :
  LensPlot.image_names None (Some index) = Ok names →
  LensPlot.image_names None (Some index') = Ok names' →
  names !! i = Some name →
  names' !! i' = Some name →
  index = index' ∧ i = i'.
Proof.
  rewrite !image_names_eq. cbn [default].
  intros Hn Hn' Hi Hi'. apply Ok_inj in Hn, Hn'.
  rewrite <- Hn in Hi. rewrite <- Hn' in Hi'. clear Hn Hn'.
  rewrite list_lookup_fmap in Hi, Hi'.
  destruct (LensPlot._NAME_LIST !! i) as [a|] eqn:Ea; [|done].
  destruct (LensPlot._NAME_LIST !! i') as [a'|] eqn:Ea'; [|done].
  simpl in *. injection Hi as <-. injection Hi' as Heq.
  destruct (name_list_letters _ _ Ea) as [c ->].
  destruct (name_list_letters _ _ Ea') as [c' ->].
  apply append_char_inj in Heq as [Hp ->].
  apply (inj pretty) in Hp. split; [lia|].
  by apply (NoDup_lookup _ _ _ _ name_list_NoDup Ea Ea').
Qed.

Lemma default_names_injective_witness : 2%Z = 2%Z ∧ 1 = 1.
Proof.
  apply (default_names_injective 2 2
           (map (fun name => "3" +:+ name) LensPlot._NAME_LIST)
           (map (fun name => "3" +:+ name) LensPlot._NAME_LIST)
           1 1 "3B"); reflexivity.
Defined.

Example image_names_examples :
  LensPlot.image_names None (Some 0%Z)
    = Ok ["1A"; "1B"; "1C"; "1D"; "1E"; "1F"; "1G"; "1H"; "1I"; "1J"; "1K"]
  ∧ LensPlot.image_names (Some ["a"; "b"]) (Some 11%Z) = Ok ["12a"; "12b"]
  ∧ LensPlot.image_names (Some ["a"; "b"]) (Some (-3)%Z) = Ok ["-2a"; "-2b"]
  ∧ LensPlot.image_names (Some []) None = Ok [].
Proof. repeat split; vm_compute; reflexivity. Qed.

Section DrawImages.
Context (log : float → float).
Context (x_image y_image mag_images : Np.array).
Context (delta_pix_x delta_pix : float) (origin : float * float).
Context (name_list_ : list string) (color : string).

Lemma texts_app ax ax' :
  LensPlot.texts (ax ++ ax') = LensPlot.texts ax ++ LensPlot.texts ax'.
Proof. apply omap_app. Qed.

Lemma markers_app ax ax' :
  LensPlot.markers (ax ++ ax') = LensPlot.markers ax + LensPlot.markers ax'.
Proof. unfold LensPlot.markers. by rewrite omap_app, length_app. Qed.

Lemma draw_images_app idx1 idx2 : ∀ ax,
  LensPlot.draw_images log x_image y_image mag_images delta_pix_x delta_pix
    origin name_list_ color (idx1 ++ idx2) ax
  = match LensPlot.draw_images log x_image y_image mag_images delta_pix_x
            delta_pix origin name_list_ color idx1 ax with
    | (ax', Ok _) =>
        LensPlot.draw_images log x_image y_image mag_images delta_pix_x
          delta_pix origin name_list_ color idx2 ax'
    | (ax', Raise e) => (ax', Raise e)
    end.
Proof.
  induction idx1 as [|i idx1 IH]; intros ax; [done|].
  simpl.
  destruct (getitem x_image i); [|done].
  destruct (getitem y_image i); [|done].
  destruct (getitem mag_images i); [|done].
  destruct (getitem name_list_ i); [|done].
  apply IH.
Qed.

(** The images [k, k + m), each with coordinates, magnification and a
    name: a marker and the name are drawn for each. *)
Lemma draw_images_seq m : ∀ k ax,
  k + m ≤ length x_image → k + m ≤ length y_image →
  k + m ≤ length mag_images → k + m ≤ length name_list_ →
  ∃ drawn,
    LensPlot.draw_images log x_image y_image mag_images delta_pix_x delta_pix
      origin name_list_ color (seq k m) ax = (ax ++ drawn, Ok tt)
    ∧ LensPlot.texts drawn = take m (drop k name_list_)
    ∧ LensPlot.markers drawn = m.
Proof.
  induction m as [|m IH]; intros k ax Hx Hy Hmag Hnames.
  - exists []. simpl. by rewrite app_nil_r.
  - destruct (lookup_lt_is_Some_2 x_image k ltac:(lia)) as [x_k Ex].
    destruct (lookup_lt_is_Some_2 y_image k ltac:(lia)) as [y_k Ey].
    destruct (lookup_lt_is_Some_2 mag_images k ltac:(lia)) as [mag Em].
    destruct (lookup_lt_is_Some_2 name_list_ k ltac:(lia)) as [name En].
    simpl. unfold getitem. rewrite Ex, Ey, Em, En.
    edestruct (IH (S k)) as (drawn & -> & Htexts & Hmarkers); [lia..|].
    eexists ([_; _] ++ drawn). split; [|split].
    + by rewrite <- !app_assoc.
    + rewrite texts_app, Htexts. by rewrite (drop_S _ _ _ En).
    + rewrite markers_app, Hmarkers. reflexivity.
Qed.

(** When there is a name for each image, the loop of
    [point_source_plot] returns after drawing one marker for each image
    and writing the first names of the list, one for each image, in their
    order. *)
Theorem draw_images_named ax :
  length x_image ≤ length y_image →
  length x_image ≤ length mag_images →
  length x_image ≤ length name_list_ →
  ∃ drawn,
    LensPlot.draw_images log x_image y_image mag_images delta_pix_x delta_pix
      origin name_list_ color (seq 0 (length x_image)) ax
    = (ax ++ drawn, Ok tt)
    ∧ LensPlot.texts drawn = take (length x_image) name_list_
    ∧ LensPlot.markers drawn = length x_image.
Proof.
  intros Hy Hmag Hnames.
  destruct (draw_images_seq (length x_image) 0 ax) as (drawn & Hrun & Ht & Hm);
    [lia..|].
  exists drawn. by rewrite drop_0 in Ht.
Qed.

(** With more images than names (more than eleven images with the
    default letters) the loop raises an [IndexError]: by then it has
    written all the names and has drawn one marker more than it has
    written names. *)
Theorem draw_images_too_few_names ax :
  length name_list_ < length x_image →
  length x_image ≤ length y_image →
  length x_image ≤ length mag_images →
  ∃ drawn,
    LensPlot.draw_images log x_image y_image mag_images delta_pix_x delta_pix
      origin name_list_ color (seq 0 (length x_image)) ax
    = (ax ++ drawn, Raise IndexError)
    ∧ LensPlot.texts drawn = name_list_
    ∧ LensPlot.markers drawn = S (length name_list_).
Proof.
  intros Hnames Hy Hmag.
  set (m := length name_list_) in *.
  destruct (draw_images_seq m 0 ax) as (drawn & Hrun & Ht & Hm); [lia..|].
  destruct (lookup_lt_is_Some_2 x_image m ltac:(lia)) as [x_k Ex].
  destruct (lookup_lt_is_Some_2 y_image m ltac:(lia)) as [y_k Ey].
  destruct (lookup_lt_is_Some_2 mag_images m ltac:(lia)) as [mag Em].
  eexists (drawn ++ [_]). split; [|split].
  - replace (length x_image) with (m + S (length x_image - S m)) by lia.
    rewrite seq_app, draw_images_app, Hrun.
    simpl. unfold getitem. rewrite Ex, Ey, Em.
    rewrite (lookup_ge_None_2 name_list_ m) by (unfold m; lia).
    by rewrite app_assoc.
  - rewrite texts_app, Ht, drop_0. simpl. rewrite app_nil_r.
    apply take_ge. unfold m. lia.
  - rewrite markers_app, Hm. unfold LensPlot.markers. simpl. lia.
Qed.

End DrawImages.

Lemma draw_images_named_witness :
  ∃ drawn,
    LensPlot.draw_images (fun x => x) [10; 20]%float [1; 2]%float
      [4; -4]%float (-0.5)%float 0.5%float (3, 4)%float LensPlot._NAME_LIST
      "k" (seq 0 (length [10; 20]%float)) []
    = ([] ++ drawn, Ok tt)
    ∧ LensPlot.texts drawn = take (length [10; 20]%float) LensPlot._NAME_LIST
    ∧ LensPlot.markers drawn = length [10; 20]%float.
Proof.
  apply (draw_images_named (fun x => x) [10; 20]%float [1; 2]%float
           [4; -4]%float (-0.5)%float 0.5%float (3, 4)%float
           LensPlot._NAME_LIST "k" []); simpl; lia.
Defined.

Lemma draw_images_too_few_names_witness :
  ∃ drawn,
    LensPlot.draw_images (fun x => x) [10; 20]%float [1; 2]%float
      [4; -4]%float (-0.5)%float 0.5%float (3, 4)%float ["A"]
      "k" (seq 0 (length [10; 20]%float)) []
    = ([] ++ drawn, Raise IndexError)
    ∧ LensPlot.texts drawn = ["A"]
    ∧ LensPlot.markers drawn = S (length ["A"]).
Proof.
  apply (draw_images_too_few_names (fun x => x) [10; 20]%float [1; 2]%float
           [4; -4]%float (-0.5)%float 0.5%float (3, 4)%float
           ["A"] "k" []); simpl; lia.
Defined.

(** What is drawn for two images and one name. *)
Example draw_images_example :
  LensPlot.draw_images (fun x => x) [10; 20]%float [1; 2]%float
    [4; -4]%float (-0.5)%float 0.5%float (3, 4)%float ["A"] "k"
    (seq 0 2) []
  = ([LensPlot.Plot (-2) 4.5 "dk" 20 0.5; LensPlot.Text (-2) 4.5 "A" 20 "k";
      LensPlot.Plot (-7) 5 "dk" 20 0.5]%float,
     Raise IndexError).
Proof. vm_compute. reflexivity. Qed.

(** ** Failure of the point-source solve *)

Section LinearSolveFailure.
Context `{Collaborators}.

(** When the residual cannot be formed (the masked model has another
    shape than the data) or [get_param_WLS] raises, the point-source
    solve raises that exception and [PointSource.update_linear] is not
    called: the state is the one left by [_error_response]. *)
Theorem linear_solve_failure_writes_nothing self sparse_model kl kps ksp
    inv_bool w w1 w2 (A : Np.matrix) C_D_response model_error e :
  point_source_linear_response_matrix self kl kps ksp w = (w1, Ok A) →
  _error_response self kl kps ksp w1 = (w2, Ok (C_D_response, model_error)) →
  Np.sub (data_response (super self)) (image2array_masked self sparse_model)
    = Raise e
  ∨ (∃ d,
       Np.sub (data_response (super self))
         (image2array_masked self sparse_model) = Ok d
       ∧ get_param_WLS (Np.transpose (num_data_evaluate (super self)) A)
           (Np.reciprocal C_D_response) d inv_bool = Raise e) →
  _image_linear_solve_point_sources self sparse_model kl kps ksp inv_bool w
  = (w2, Raise e).
Proof.
  intros HA Herr Hfail. unfold _image_linear_solve_point_sources.
  rewrite (bind_Ok _ _ _ _ _ HA), (bind_Ok _ _ _ _ _ Herr).
  unfold mbind, M_bind, bind, lift.
  destruct Hfail as [-> | (d & -> & ->)]; done.
Qed.

End LinearSolveFailure.

Lemma linear_solve_failure_writes_nothing_witness :
  @_image_linear_solve_point_sources Demo.collaborators
    Demo.with_point_source [[0; 0]; [2]]%float None (Some [3%positive])
    None false Demo.w1
  = (Demo.w1, Raise (ValueError "operands could not be broadcast together")).
Proof.
  apply (@linear_solve_failure_writes_nothing Demo.collaborators
           Demo.with_point_source [[0; 0]; [2]]%float None (Some [3%positive])
           None false Demo.w1 Demo.w1 Demo.w1 [[0; 1; 0.5; 0]]%float
           [1; 1; 1; 4]%float [[0; 0]; [0; 0]]%float).
  - vm_compute. reflexivity.
  - reflexivity.
  - left. reflexivity.
Defined.

(** ** Expanding twice *)

(** Expanding an expanded array or number to the same size changes
    nothing. *)
Theorem expand_to_array_idempotent (array : BasePS.scalar_or_array) num :
  BasePS._expand_to_array
    (BasePS.Array (BasePS._expand_to_array array num)) num
  = BasePS._expand_to_array array num.
Proof.
  rewrite expand_to_array_eq.
  replace (num - length (BasePS._expand_to_array array num)) with 0;
    [by rewrite app_nil_r|].
  destruct array as [x|xs].
  - simpl. rewrite length_map, length_replicate. lia.
  - rewrite expand_to_array_eq, length_app, length_replicate. lia.
Qed.
